(** * PiiReadWriteLock: a shallow embedding and its verification

    The development follows [PiiReadWriteLock.cc].  Every member function
    of the lock runs under [QMutexLocker lock(&d->mutex)], and the only
    places where the mutex is given up are the two calls of
    [QWaitCondition::wait].  A member function is therefore a sequence of
    atomic sections; each section is embedded as a pure function on the
    shared [Data], and a call that reaches a [wait] hands back the locals
    it needs when it is resumed.

    The [int] counters are embedded as [Z]: signed overflow is undefined
    in C++, and the counters only ever count threads and nesting depth.
    [Qt::HANDLE] is embedded as [Z] too, with [0] for the null handle. *)

From stdpp Require Import gmap.

Local Open Scope Z_scope.

(** ** The shared state: [PiiReadWriteLock::Data] *)

(** Modelled from the spec: the header [PiiReadWriteLock.h], which
    declares [Data] and [ThreadHash], is not among the sources.  The
    fields are those initialised by the constructor
    [PiiReadWriteLock::Data::Data], in its order, followed by
    [hashCurrentReaders], which the code uses as a hash from thread
    handles to counts ([find], [insert(self, 1)], [it.value()], [erase])
    and which starts empty.  Their types are those of the data model of
    the specification: integer counters, a thread identity or none, a
    mapping from thread identity to int.  The members [mutex],
    [readerWait] and [writerWait] carry no data of their own: the mutex is
    embedded as the atomicity of the sections, the wait conditions as the
    sets of threads blocked in them ([sys] below). *)
Record Data := mkData {
  currentWriter : Z;
  bRecursive : bool;
  iActiveReaders : Z;
  iActiveWriters : Z;
  iWaitingReaders : Z;
  iWaitingWriters : Z;
  hashCurrentReaders : gmap Z Z
}.

(** [PiiReadWriteLock::Data::Data(bool recursive)] *)
Definition Data_new (recursive : bool) : Data :=
  mkData 0 recursive 0 0 0 0 ∅.

(** Field updates. *)
Definition set_currentWriter (w : Z) (d : Data) : Data :=
  mkData w (bRecursive d) (iActiveReaders d) (iActiveWriters d)
         (iWaitingReaders d) (iWaitingWriters d) (hashCurrentReaders d).

Definition set_iActiveReaders (n : Z) (d : Data) : Data :=
  mkData (currentWriter d) (bRecursive d) n (iActiveWriters d)
         (iWaitingReaders d) (iWaitingWriters d) (hashCurrentReaders d).

Definition set_iActiveWriters (n : Z) (d : Data) : Data :=
  mkData (currentWriter d) (bRecursive d) (iActiveReaders d) n
         (iWaitingReaders d) (iWaitingWriters d) (hashCurrentReaders d).

Definition set_iWaitingReaders (n : Z) (d : Data) : Data :=
  mkData (currentWriter d) (bRecursive d) (iActiveReaders d) (iActiveWriters d)
         n (iWaitingWriters d) (hashCurrentReaders d).

Definition set_iWaitingWriters (n : Z) (d : Data) : Data :=
  mkData (currentWriter d) (bRecursive d) (iActiveReaders d) (iActiveWriters d)
         (iWaitingReaders d) n (hashCurrentReaders d).

Definition set_hashCurrentReaders (h : gmap Z Z) (d : Data) : Data :=
  mkData (currentWriter d) (bRecursive d) (iActiveReaders d) (iActiveWriters d)
         (iWaitingReaders d) (iWaitingWriters d) h.

(** ** Outcomes of an atomic section *)

(** An acquire either returns to its caller or stops in
    [QWaitCondition::wait]; in the second case the mutex is released with
    the state [d] and the locals [k] are kept for the resumption. *)
Inductive outcome (K : Type) : Type :=
| Returned (d : Data)
| Blocked (d : Data) (k : K).
Arguments Returned {K} d.
Arguments Blocked {K} d k.

(** What [wakeUp] does to the two wait conditions. *)
Inductive wake_effect : Type :=
| writerWait_wakeOne
| readerWait_wakeAll
| no_wake.

(** A release either trips its [Q_ASSERT], or returns, telling whether
    [wakeUp] was called and with what effect. *)
Inductive release_result : Type :=
| AssertionFailed
| Released (d : Data) (woken : option wake_effect).

(** [Q_ASSERT(cond)]: aborts when [cond] is false, unless the build
    defines [QT_NO_DEBUG], where the macro expands to nothing. *)
Definition Q_ASSERT_aborts (QT_NO_DEBUG : bool) (cond : bool) : bool :=
  negb QT_NO_DEBUG && negb cond.

(** ** [PiiReadWriteLock::lockForRead] *)

(** The condition of [while (d->iActiveWriters > 0 || d->iWaitingWriters > 0)]. *)
Definition read_must_wait (d : Data) : bool :=
  (0 <? iActiveWriters d) || (0 <? iWaitingWriters d).

(** The loop of [lockForRead] from its test on, and the code behind it.
    [self] is the local of that name. *)
Definition lockForRead_loop (self : Z) (d : Data) : outcome Z :=
  if read_must_wait d then
    (* ++d->iWaitingReaders; d->readerWait.wait(&d->mutex); *)
    Blocked (set_iWaitingReaders (iWaitingReaders d + 1) d) self
  else
    let d1 :=
      if bRecursive d
      then set_hashCurrentReaders (<[self := 1]> (hashCurrentReaders d)) d
      else d in
    Returned (set_iActiveReaders (iActiveReaders d1 + 1) d1).

(** The call, up to its return or its first wait.  [currentThreadId] is
    what [QThread::currentThreadId()] gives the caller. *)
Definition lockForRead (currentThreadId : Z) (d : Data) : outcome Z :=
  if bRecursive d then
    let self := currentThreadId in
    match hashCurrentReaders d !! self with
    | Some n =>
        (* Re-acquiring a read lock *)
        let d1 := set_hashCurrentReaders (<[self := n + 1]> (hashCurrentReaders d)) d in
        Returned (set_iActiveReaders (iActiveReaders d1 + 1) d1)
    | None =>
        if currentWriter d =? self then
          (* Using a write lock for reading *)
          let d1 := set_hashCurrentReaders (<[self := 1]> (hashCurrentReaders d)) d in
          Returned (set_iActiveReaders (iActiveReaders d1 + 1) d1)
        else lockForRead_loop self d
    end
  else lockForRead_loop 0 d.

(** The return of [readerWait.wait]: [--d->iWaitingReaders], then the
    loop test again. *)
Definition lockForRead_wake (self : Z) (d : Data) : outcome Z :=
  lockForRead_loop self (set_iWaitingReaders (iWaitingReaders d - 1) d).

(** ** [PiiReadWriteLock::lockForWrite] *)

(** The condition of
    [while (d->iActiveWriters > 0 || d->iActiveReaders > iRemainingReaders)]. *)
Definition write_must_wait (iRemainingReaders : Z) (d : Data) : bool :=
  (0 <? iActiveWriters d) || (iRemainingReaders <? iActiveReaders d).

Definition lockForWrite_loop (self iRemainingReaders : Z) (d : Data)
  : outcome (Z * Z) :=
  if write_must_wait iRemainingReaders d then
    (* ++d->iWaitingWriters; d->writerWait.wait(&d->mutex); *)
    Blocked (set_iWaitingWriters (iWaitingWriters d + 1) d)
            (self, iRemainingReaders)
  else
    let d1 := set_currentWriter self d in
    Returned (set_iActiveWriters (iActiveWriters d1 + 1) d1).

Definition lockForWrite (currentThreadId : Z) (d : Data) : outcome (Z * Z) :=
  if bRecursive d then
    let self := currentThreadId in
    if currentWriter d =? self then
      (* Recursive lock can be locked for writing again. *)
      Returned (set_iActiveWriters (iActiveWriters d + 1) d)
    else
      (* See if we currently hold a read lock. *)
      let iRemainingReaders :=
        match hashCurrentReaders d !! self with
        | Some n => n
        | None => 0
        end in
      lockForWrite_loop self iRemainingReaders d
  else lockForWrite_loop 0 0 d.

(** The return of [writerWait.wait]. *)
Definition lockForWrite_wake (k : Z * Z) (d : Data) : outcome (Z * Z) :=
  lockForWrite_loop (fst k) (snd k)
    (set_iWaitingWriters (iWaitingWriters d - 1) d).

(** ** [PiiReadWriteLock::wakeUp] *)

Definition wakeUp (d : Data) : wake_effect :=
  if negb (iWaitingWriters d =? 0) then writerWait_wakeOne
  else if negb (iWaitingReaders d =? 0) then readerWait_wakeAll
  else no_wake.

(** ** [PiiReadWriteLock::unlockRead] *)

Definition unlockRead (QT_NO_DEBUG : bool) (currentThreadId : Z) (d : Data)
  : release_result :=
  if Q_ASSERT_aborts QT_NO_DEBUG (0 <? iActiveReaders d) then AssertionFailed
  else
    let d1 :=
      if bRecursive d then
        let self := currentThreadId in
        match hashCurrentReaders d !! self with
        | Some n =>
            (* --it.value() <= 0 *)
            if n - 1 <=? 0
            then set_hashCurrentReaders (delete self (hashCurrentReaders d)) d
            else set_hashCurrentReaders (<[self := n - 1]> (hashCurrentReaders d)) d
        | None => d
        end
      else d in
    (* --d->iActiveReaders == 0 && d->iActiveWriters == 0 *)
    let d2 := set_iActiveReaders (iActiveReaders d1 - 1) d1 in
    if (iActiveReaders d2 =? 0) && (iActiveWriters d2 =? 0)
    then Released d2 (Some (wakeUp d2))
    else Released d2 None.

(** ** [PiiReadWriteLock::unlockWrite]

    The function never asks for the calling thread. *)
Definition unlockWrite (QT_NO_DEBUG : bool) (d : Data) : release_result :=
  if Q_ASSERT_aborts QT_NO_DEBUG (0 <? iActiveWriters d) then AssertionFailed
  else
    let d1 := set_iActiveWriters (iActiveWriters d - 1) d in
    if iActiveWriters d1 =? 0 then
      let d2 := set_currentWriter 0 d1 in
      if iActiveReaders d2 =? 0
      then Released d2 (Some (wakeUp d2))
      else Released d2 None
    else Released d1 None.

(** ** Threads around the lock

    The lock is used by threads that call its four operations.  A thread
    is either running its own code or blocked inside an acquire, in one of
    the two wait conditions.  Since every section of the lock runs under
    the mutex, an execution is a sequence of events: a running thread calls
    an operation, or a blocked thread returns from [wait].  A blocked
    thread may resume at any moment here, which covers [wakeOne],
    [wakeAll] and spurious wake-ups alike. *)

Inductive op : Type := AcquireRead | AcquireWrite | ReleaseRead | ReleaseWrite.

Inductive event : Type :=
| Call (t : Z) (o : op)
| Wake (t : Z).

(** [readerWait] and [writerWait] hold the threads blocked in the wait
    condition of that name, each with the locals of its suspended call
    ([self], and [iRemainingReaders] for a writer).  [readHolds] and
    [writeHolds] are bookkeeping of the proof, not of the program: how
    many acquires of each kind have returned to a thread and are not yet
    released by it.  A thread without an entry holds nothing. *)
Record sys := mkSys {
  lock : Data;
  readerWait : gmap Z Z;
  writerWait : gmap Z (Z * Z);
  readHolds : gmap Z Z;
  writeHolds : gmap Z Z
}.

Definition sys_new (recursive : bool) : sys :=
  mkSys (Data_new recursive) ∅ ∅ ∅ ∅.

(** One more hold for [t]; one hold less, the entry going with the last. *)
Definition grant (t : Z) (h : gmap Z Z) : gmap Z Z :=
  <[t := default 0 (h !! t) + 1]> h.

Definition drop (t : Z) (h : gmap Z Z) : gmap Z Z :=
  match h !! t with
  | Some n => if n - 1 <=? 0 then delete t h else <[t := n - 1]> h
  | None => h
  end.

Definition running (t : Z) (s : sys) : bool :=
  bool_decide (readerWait s !! t = None) && bool_decide (writerWait s !! t = None).

(** One event.  [None] when the event cannot happen: the null handle is
    no thread, a blocked thread calls nothing, a running thread has
    nothing to wake from, a release is called only by a thread holding a
    lock of that kind (the pairing of acquire and release), and a failed
    [Q_ASSERT] ends the program. *)
Definition step (QT_NO_DEBUG : bool) (s : sys) (e : event) : option sys :=
  match e with
  | Call t o =>
      if (t =? 0) || negb (running t s) then None else
      match o with
      | AcquireRead =>
          match lockForRead t (lock s) with
          | Returned d =>
              Some (mkSys d (readerWait s) (writerWait s)
                          (grant t (readHolds s)) (writeHolds s))
          | Blocked d self =>
              Some (mkSys d (<[t := self]> (readerWait s)) (writerWait s)
                          (readHolds s) (writeHolds s))
          end
      | AcquireWrite =>
          match lockForWrite t (lock s) with
          | Returned d =>
              Some (mkSys d (readerWait s) (writerWait s)
                          (readHolds s) (grant t (writeHolds s)))
          | Blocked d k =>
              Some (mkSys d (readerWait s) (<[t := k]> (writerWait s))
                          (readHolds s) (writeHolds s))
          end
      | ReleaseRead =>
          match readHolds s !! t with
          | None => None
          | Some _ =>
              match unlockRead QT_NO_DEBUG t (lock s) with
              | AssertionFailed => None
              | Released d _ =>
                  Some (mkSys d (readerWait s) (writerWait s)
                              (drop t (readHolds s)) (writeHolds s))
              end
          end
      | ReleaseWrite =>
          match writeHolds s !! t with
          | None => None
          | Some _ =>
              match unlockWrite QT_NO_DEBUG (lock s) with
              | AssertionFailed => None
              | Released d _ =>
                  Some (mkSys d (readerWait s) (writerWait s)
                              (readHolds s) (drop t (writeHolds s)))
              end
          end
      end
  | Wake t =>
      match readerWait s !! t with
      | Some self =>
          match lockForRead_wake self (lock s) with
          | Returned d =>
              Some (mkSys d (delete t (readerWait s)) (writerWait s)
                          (grant t (readHolds s)) (writeHolds s))
          | Blocked d self' =>
              Some (mkSys d (<[t := self']> (readerWait s)) (writerWait s)
                          (readHolds s) (writeHolds s))
          end
      | None =>
          match writerWait s !! t with
          | Some k =>
              match lockForWrite_wake k (lock s) with
              | Returned d =>
                  Some (mkSys d (readerWait s) (delete t (writerWait s))
                              (readHolds s) (grant t (writeHolds s)))
              | Blocked d k' =>
                  Some (mkSys d (readerWait s) (<[t := k']> (writerWait s))
                              (readHolds s) (writeHolds s))
              end
          | None => None
          end
      end
  end.

(** A sequence of events, from left to right. *)
Fixpoint run (QT_NO_DEBUG : bool) (s : sys) (es : list event) : option sys :=
  match es with
  | [] => Some s
  | e :: es' =>
      match step QT_NO_DEBUG s e with
      | Some s' => run QT_NO_DEBUG s' es'
      | None => None
      end
  end.

(** What the claims speak of. *)
Definition holds_read (s : sys) (t : Z) : Prop := is_Some (readHolds s !! t).
Definition holds_write (s : sys) (t : Z) : Prop := is_Some (writeHolds s !! t).

(** A single thread running a straight line of calls, with nothing in
    between: [None] as soon as a call blocks or aborts. *)
Definition call (QT_NO_DEBUG : bool) (self : Z) (o : op) (d : Data) : option Data :=
  match o with
  | AcquireRead =>
      match lockForRead self d with Returned d' => Some d' | Blocked _ _ => None end
  | AcquireWrite =>
      match lockForWrite self d with Returned d' => Some d' | Blocked _ _ => None end
  | ReleaseRead =>
      match unlockRead QT_NO_DEBUG self d with
      | Released d' _ => Some d' | AssertionFailed => None end
  | ReleaseWrite =>
      match unlockWrite QT_NO_DEBUG d with
      | Released d' _ => Some d' | AssertionFailed => None end
  end.

Fixpoint calls (QT_NO_DEBUG : bool) (self : Z) (os : list op) (d : Data)
  : option Data :=
  match os with
  | [] => Some d
  | o :: os' =>
      match call QT_NO_DEBUG self o d with
      | Some d' => calls QT_NO_DEBUG self os' d'
      | None => None
      end
  end.

(** The sum of the hold counts of a table. *)
Definition msum (m : gmap Z Z) : Z := map_fold (λ _ v acc, v + acc) 0 m.

Definition positive_counts (m : gmap Z Z) : Prop :=
  ∀ k v, m !! k = Some v → 0 < v.

(** The well-formedness of the shared state that the specification asks
    for: counters are not negative and a thread has an entry in the table
    only for a positive count. *)
Record well_formed (d : Data) : Prop := {
  wf_readers : 0 ≤ iActiveReaders d;
  wf_writers : 0 ≤ iActiveWriters d;
  wf_waiting_readers : 0 ≤ iWaitingReaders d;
  wf_waiting_writers : 0 ≤ iWaitingWriters d;
  wf_hash : positive_counts (hashCurrentReaders d)
}.

(** ** States named in the statements and the invariant *)

(** The state a reader leaves behind when it is let in at the loop test. *)
Definition read_granted (self : Z) (d : Data) : Data :=
  let d1 :=
    if bRecursive d
    then set_hashCurrentReaders (<[self := 1]> (hashCurrentReaders d)) d
    else d in
  set_iActiveReaders (iActiveReaders d1 + 1) d1.

(** The state a writer leaves behind when it is let in at the loop test. *)
Definition write_granted (self : Z) (d : Data) : Data :=
  set_iActiveWriters (iActiveWriters d + 1) (set_currentWriter self d).

(** The state after [unlockRead], in one piece: on a recursive lock the
    table loses one hold of the caller, and [iActiveReaders] goes down by
    one. *)
Definition read_released (tid : Z) (d : Data) : Data :=
  set_iActiveReaders (iActiveReaders d - 1)
    (set_hashCurrentReaders
       (if bRecursive d then drop tid (hashCurrentReaders d)
        else hashCurrentReaders d) d).

(** [iActiveWriters] goes down by one and [currentWriter] is cleared with
    the last write lock. *)
Definition write_released (d : Data) : Data :=
  set_currentWriter (if iActiveWriters d - 1 =? 0 then 0 else currentWriter d)
    (set_iActiveWriters (iActiveWriters d - 1) d).

(** Two states that differ at most in [iActiveWriters] and
    [currentWriter]. *)
Definition same_but_writer (d d' : Data) : Prop :=
  bRecursive d' = bRecursive d ∧
  iActiveReaders d' = iActiveReaders d ∧
  iWaitingReaders d' = iWaitingReaders d ∧
  iWaitingWriters d' = iWaitingWriters d ∧
  hashCurrentReaders d' = hashCurrentReaders d.

(** How the shared state relates to what the threads hold: the counters
    are the sums of the holds, a writer excludes every other thread, the
    table of a recursive lock is the table of read holds, and
    [currentWriter] names the writer of a recursive lock and stays null
    otherwise. *)
Definition consistent (d : Data) (R W : gmap Z Z) : Prop :=
  positive_counts R ∧
  positive_counts W ∧
  iActiveReaders d = msum R ∧
  iActiveWriters d = msum W ∧
  (∀ t1 t2, is_Some (W !! t1) → is_Some (W !! t2) → t1 = t2) ∧
  (∀ t1 t2, is_Some (W !! t1) → is_Some (R !! t2) → t1 = t2) ∧
  hashCurrentReaders d = (if bRecursive d then R else ∅) ∧
  (if bRecursive d
   then ∀ t, is_Some (W !! t) ↔ currentWriter d = t ∧ t ≠ 0
   else currentWriter d = 0).

(** The locals of the suspended calls are what they were computed from,
    no thread waits twice, and the waiting counters count the waiting
    threads. *)
Definition waiters_consistent (s : sys) : Prop :=
  (∀ t self, readerWait s !! t = Some self →
     self = (if bRecursive (lock s) then t else 0) ∧
     (bRecursive (lock s) = true → readHolds s !! t = None)) ∧
  (∀ t k, writerWait s !! t = Some k →
     t ≠ 0 ∧
     k = (if bRecursive (lock s) then t else 0,
          if bRecursive (lock s) then default 0 (readHolds s !! t) else 0)) ∧
  (∀ t, readerWait s !! t = None ∨ writerWait s !! t = None) ∧
  iWaitingReaders (lock s) = Z.of_nat (size (readerWait s)) ∧
  iWaitingWriters (lock s) = Z.of_nat (size (writerWait s)).

Definition invariant (s : sys) : Prop :=
  consistent (lock s) (readHolds s) (writeHolds s) ∧ waiters_consistent s.

(** The state after [t] got one more read lock, by whichever path. *)
Definition read_taken (t : Z) (d : Data) : Data :=
  set_iActiveReaders (iActiveReaders d + 1)
    (set_hashCurrentReaders
       (if bRecursive d then grant t (hashCurrentReaders d)
        else hashCurrentReaders d) d).

(** What a section leaves of the fields the waiters depend on. *)
Definition keeps (d d1 : Data) (dr dw : Z) : Prop :=
  bRecursive d1 = bRecursive d ∧
  iWaitingReaders d1 = iWaitingReaders d + dr ∧
  iWaitingWriters d1 = iWaitingWriters d + dw.

Ltac keeps_tac :=
  unfold keeps in *; simpl in *; repeat split; first [lia | done | intuition lia].

(** ** Definitions for the further properties *)

(** The thread an event belongs to. *)
Definition thread_of (e : event) : Z :=
  match e with
  | Call t _ => t
  | Wake t => t
  end.

(** Two states that differ at most in [iActiveReaders] and in the entry
    of [t] in the table. *)
Definition same_but_reader (t : Z) (d d' : Data) : Prop :=
  currentWriter d' = currentWriter d ∧
  bRecursive d' = bRecursive d ∧
  iActiveWriters d' = iActiveWriters d ∧
  iWaitingReaders d' = iWaitingReaders d ∧
  iWaitingWriters d' = iWaitingWriters d ∧
  ∀ t', t' ≠ t → hashCurrentReaders d' !! t' = hashCurrentReaders d !! t'.

(** The state after [tid] got one more write lock, by either path. *)
Definition write_taken (tid : Z) (d : Data) : Data :=
  set_iActiveWriters (iActiveWriters d + 1) (set_currentWriter tid d).

(** What exclusion comes to on a lock that is not recursive: at most one
    write lock, and no read lock beside it. *)
Definition nonrecursive_exclusive (d : Data) : Prop :=
  bRecursive d = false →
  iActiveWriters d ≤ 1 ∧ (0 < iActiveWriters d → iActiveReaders d ≤ 0).

(** A thread that waits for what only itself could give back: it waits
    in [lockForWrite] with a lock of its own, or in [lockForRead] with the
    write lock of its own. *)
Definition self_deadlocked (s : sys) (t : Z) : Prop :=
  (is_Some (writerWait s !! t) ∧ (holds_read s t ∨ holds_write s t)) ∨
  (is_Some (readerWait s !! t) ∧ holds_write s t).

(** Two threads that each wait in [lockForWrite] with a read lock. *)
Definition promoters_deadlocked (s : sys) (a b : Z) : Prop :=
  a ≠ b ∧
  is_Some (writerWait s !! a) ∧ is_Some (writerWait s !! b) ∧
  holds_read s a ∧ holds_read s b.

(** ** Wake-ups as [QWaitCondition] delivers them

    The events above let a blocked thread resume at any moment.  Qt is
    more precise: [QWaitCondition::wait(&mutex)], called without a
    timeout as the lock does, returns only after a [wakeOne] that picked
    the thread or after a [wakeAll] on its wait condition.  [signalled]
    holds the blocked threads whose wake-up is under way; a release adds
    to it what its [wakeUp] wakes, and only a signalled thread resumes.
    Which of the waiting writers a [wakeOne] picks is up to the
    scheduler: [pick] names it, and is [None] when no writer is left to
    wake. *)
Record signalled_sys := mkSignalled {
  threads : sys;
  signalled : gset Z
}.

Definition signalled_new (recursive : bool) : signalled_sys :=
  mkSignalled (sys_new recursive) ∅.

(** What the call of an event wakes, if it calls [wakeUp] at all. *)
Definition wake_of (QT_NO_DEBUG : bool) (s : sys) (e : event)
  : option wake_effect :=
  match e with
  | Call t ReleaseRead =>
      match unlockRead QT_NO_DEBUG t (lock s) with
      | Released _ woken => woken
      | AssertionFailed => None
      end
  | Call t ReleaseWrite =>
      match unlockWrite QT_NO_DEBUG (lock s) with
      | Released _ woken => woken
      | AssertionFailed => None
      end
  | _ => None
  end.

Definition step_signalled (QT_NO_DEBUG : bool) (ws : signalled_sys)
    (e : event) (pick : option Z) : option signalled_sys :=
  match e with
  | Wake t =>
      if bool_decide (t ∈ signalled ws) then
        match step QT_NO_DEBUG (threads ws) e with
        | Some s' => Some (mkSignalled s' (signalled ws ∖ {[t]}))
        | None => None
        end
      else None
  | Call _ _ =>
      match step QT_NO_DEBUG (threads ws) e with
      | Some s' =>
          match wake_of QT_NO_DEBUG (threads ws) e with
          | Some writerWait_wakeOne =>
              let waiting := dom (writerWait (threads ws)) ∖ signalled ws in
              match pick with
              | Some t' =>
                  if bool_decide (t' ∈ waiting)
                  then Some (mkSignalled s' (signalled ws ∪ {[t']}))
                  else None
              | None =>
                  if bool_decide (waiting = ∅)
                  then Some (mkSignalled s' (signalled ws))
                  else None
              end
          | Some readerWait_wakeAll =>
              Some (mkSignalled s'
                      (signalled ws ∪ dom (readerWait (threads ws))))
          | Some no_wake | None => Some (mkSignalled s' (signalled ws))
          end
      | None => None
      end
  end.

Fixpoint run_signalled (QT_NO_DEBUG : bool) (ws : signalled_sys)
    (es : list (event * option Z)) : option signalled_sys :=
  match es with
  | [] => Some ws
  | (e, pick) :: es' =>
      match step_signalled QT_NO_DEBUG ws e pick with
      | Some ws' => run_signalled QT_NO_DEBUG ws' es'
      | None => None
      end
  end.

(** A thread that waits and has not been signalled. *)
Definition waits_unsignalled (ws : signalled_sys) (t : Z) : Prop :=
  (is_Some (readerWait (threads ws) !! t) ∨
   is_Some (writerWait (threads ws) !! t)) ∧
  (t ∉ signalled ws).

(** A thread that waits in [lockForWrite], not signalled, with a read
    lock of its own. *)
Definition stranded (ws : signalled_sys) (p : Z) : Prop :=
  is_Some (writerWait (threads ws) !! p) ∧
  (p ∉ signalled ws) ∧
  holds_read (threads ws) p.

(** Only waiting threads are signalled. *)
Definition signalled_wait (ws : signalled_sys) : Prop :=
  ∀ t, t ∈ signalled ws →
       is_Some (readerWait (threads ws) !! t) ∨
       is_Some (writerWait (threads ws) !! t).

(** ** [PiiConceptualMatrix.h]: models of the matrix concept

    The header is generic code.  [PiiConceptualMatrix<Derived>] forwards
    [rows()], [columns()], [begin()], [end()] and [rowBegin()] to the
    class that models the concept, and asks of it that the iterators
    "scan the matrix in row-major order: the end of row N is immediately
    followed by the start of row N+1".  A model is embedded as just that:
    its numbers of rows and columns and the entries in the order of the
    scan from [begin()] to [end()].  The entry type and the function
    objects are template parameters and stay parameters here. *)
Record Matrix (T : Type) : Type := mkMatrix {
  rows : Z;
  columns : Z;
  entries : list T
}.
Arguments mkMatrix {T} rows columns entries.
Arguments rows {T} m.
Arguments columns {T} m.
Arguments entries {T} m.

(** What the concept requires: the scan has [rows() * columns()]
    entries. *)
Definition models_matrix {T : Type} (m : Matrix T) : Prop :=
  0 ≤ rows m ∧ 0 ≤ columns m ∧
  Z.of_nat (length (entries m)) = rows m * columns m.


(** [at(r, c)] and [operator() (r, c)]: [rowBegin(r)[c]], the entry [c]
    places after the start of row [r].  Nothing checks the indices; an
    access outside the matrix has no defined result, which is [None]. *)
Definition at_ {T : Type} (m : Matrix T) (r c : Z) : option T :=
  if (0 <=? r) && (r <? rows m) && (0 <=? c) && (c <? columns m)
  then entries m !! Z.to_nat (r * columns m + c)
  else None.

(** [std::equal(first1, last1, first2)] with the [==] of the entries: the
    first range decides the length, the comparison stops at the first
    difference, and reading the second range past its end has no defined
    result. *)
Fixpoint std_equal {T U : Type} (eqb : T → U → bool) (l1 : list T) (l2 : list U)
  : option bool :=
  match l1 with
  | [] => Some true
  | x :: l1' =>
      match l2 with
      | [] => None
      | y :: l2' => if eqb x y then std_equal eqb l1' l2' else Some false
      end
  end.

(** [Pii::equals(mat1, mat2)] *)
Definition equals {T U : Type} (eqb : T → U → bool)
    (mat1 : Matrix T) (mat2 : Matrix U) : option bool :=
  if negb (rows mat1 =? rows mat2) || negb (columns mat1 =? columns mat2)
  then Some false
  else std_equal eqb (entries mat1) (entries mat2).




(** [PiiUnaryMatrixTransform(mat, func)]: "works as if it was the result
    of calculating func(mat)".  [rows()] and [columns()] are those of
    [mat], and the scan applies [func] to the scan of [mat]. *)
Definition unaryMatrixTransform {T U : Type} (mat : Matrix T) (func : T → U)
  : Matrix U :=
  mkMatrix (rows mat) (columns mat) (func <$> entries mat).





(** [PII_MATRIX_SCALAR_OPERATOR(OPERATOR, FUNCTION)]: the operators
    [matrix OPERATOR value]; [std::bind2nd(f, value)] is [f(x, value)]. *)
Definition matrix_scalar_operator {T V : Type} (FUNCTION : T → T → V)
    (matrix : Matrix T) (value : T) : Matrix V :=
  unaryMatrixTransform matrix (λ x, FUNCTION x value).

(** [Derived& operator= (value_type value)]: [std::fill(begin(), end(), value)]. *)
Definition assign_value {T : Type} (m : Matrix T) (value : T) : Matrix T :=
  mkMatrix (rows m) (columns m) (replicate (length (entries m)) value).

(** * Properties of the four operations *)

(** Case analysis on the integer tests of the code. *)
Ltac ztests :=
  repeat match goal with
  | |- context [?a <? ?b] => destruct (Z.ltb_spec a b)
  | |- context [?a <=? ?b] => destruct (Z.leb_spec a b)
  | |- context [?a =? ?b] => destruct (Z.eqb_spec a b)
  | H : context [?a <? ?b] |- _ => destruct (Z.ltb_spec a b)
  | H : context [?a <=? ?b] |- _ => destruct (Z.leb_spec a b)
  | H : context [?a =? ?b] |- _ => destruct (Z.eqb_spec a b)
  end.

Lemma read_must_wait_spec (d : Data) :
  read_must_wait d = true ↔ 0 < iActiveWriters d ∨ 0 < iWaitingWriters d.
Proof.
  unfold read_must_wait. rewrite orb_true_iff, !Z.ltb_lt. tauto.
Qed.

Lemma write_must_wait_spec (own : Z) (d : Data) :
  write_must_wait own d = true ↔ 0 < iActiveWriters d ∨ own < iActiveReaders d.
Proof.
  unfold write_must_wait. rewrite orb_true_iff, !Z.ltb_lt. tauto.
Qed.

Lemma read_must_wait_false (d : Data) :
  ¬ (0 < iActiveWriters d ∨ 0 < iWaitingWriters d) → read_must_wait d = false.
Proof.
  intros H. destruct (read_must_wait d) eqn:E; [|done].
  apply read_must_wait_spec in E. contradiction.
Qed.

Lemma write_must_wait_false (own : Z) (d : Data) :
  ¬ (0 < iActiveWriters d ∨ own < iActiveReaders d) → write_must_wait own d = false.
Proof.
  intros H. destruct (write_must_wait own d) eqn:E; [|done].
  apply write_must_wait_spec in E. contradiction.
Qed.

(** C3: a thread without a read lock of its own that is not the current
    writer waits in [lockForRead] exactly while a writer is active or
    waiting.  At the call and after every wake-up (which first takes the
    thread out of [iWaitingReaders]) the guard is tested: if it holds the
    thread counts itself in [iWaitingReaders] and waits (again), and only
    if it fails is [iActiveReaders] incremented, with the thread's entry
    set to 1 in recursive mode. *)
Theorem lockForRead_waits_for_writers (tid : Z) (d : Data)
    (Hnew : bRecursive d = true →
            hashCurrentReaders d !! tid = None ∧ currentWriter d ≠ tid) :
  let self := if bRecursive d then tid else 0 in
  (* the call *)
  (0 < iActiveWriters d ∨ 0 < iWaitingWriters d →
     lockForRead tid d
     = Blocked (set_iWaitingReaders (iWaitingReaders d + 1) d) self) ∧
  (¬ (0 < iActiveWriters d ∨ 0 < iWaitingWriters d) →
     lockForRead tid d = Returned (read_granted self d) ∧
     iActiveReaders (read_granted self d) = iActiveReaders d + 1 ∧
     (bRecursive d = true →
        hashCurrentReaders (read_granted self d) !! tid = Some 1)) ∧
  (* every return from [readerWait.wait], in whatever state [d'] *)
  (∀ d' : Data,
     let woken := set_iWaitingReaders (iWaitingReaders d' - 1) d' in
     (0 < iActiveWriters d' ∨ 0 < iWaitingWriters d' →
        lockForRead_wake self d'
        = Blocked (set_iWaitingReaders (iWaitingReaders woken + 1) woken) self) ∧
     (¬ (0 < iActiveWriters d' ∨ 0 < iWaitingWriters d') →
        lockForRead_wake self d' = Returned (read_granted self woken) ∧
        iActiveReaders (read_granted self woken) = iActiveReaders d' + 1 ∧
        (bRecursive d' = true →
           hashCurrentReaders (read_granted self woken) !! self = Some 1))).
Proof.
  intros self. split; [|split].
  - intros Hg. apply read_must_wait_spec in Hg.
    unfold lockForRead, self. destruct (bRecursive d) eqn:Hrec.
    + destruct (Hnew eq_refl) as [-> Hcw]. simpl.
      destruct (Z.eqb_spec (currentWriter d) tid); [done|].
      unfold lockForRead_loop. by rewrite Hg.
    + unfold lockForRead_loop. by rewrite Hg.
  - intros Hg. apply read_must_wait_false in Hg. repeat split.
    + unfold lockForRead, self, read_granted. destruct (bRecursive d) eqn:Hrec.
      * destruct (Hnew eq_refl) as [-> Hcw]. simpl.
        destruct (Z.eqb_spec (currentWriter d) tid); [done|].
        unfold lockForRead_loop. by rewrite Hg, Hrec.
      * unfold lockForRead_loop. by rewrite Hg, Hrec.
    + unfold read_granted. by destruct (bRecursive d).
    + intros Hrec. unfold read_granted, self. rewrite Hrec. simpl.
      apply lookup_insert_eq.
  - intros d' woken. split.
    + intros Hg. unfold lockForRead_wake, lockForRead_loop.
      rewrite (proj2 (read_must_wait_spec _)); [done|exact Hg].
    + intros Hg. repeat split.
      * unfold lockForRead_wake, lockForRead_loop, read_granted.
        rewrite read_must_wait_false; [done|exact Hg].
      * unfold read_granted. by destruct (bRecursive woken).
      * intros Hrec. unfold read_granted. simpl. rewrite Hrec. simpl.
        apply lookup_insert_eq.
Qed.

Lemma lockForRead_waits_for_writers_witness :
  lockForRead 5 (mkData 0 true 1 0 0 1 ∅)
  = Blocked (mkData 0 true 1 0 1 1 ∅) 5.
Proof.
  apply (lockForRead_waits_for_writers 5 (mkData 0 true 1 0 0 1 ∅)).
  - intros _. split; [reflexivity | simpl; lia].
  - right. simpl. lia.
Defined.

(** C4: in recursive mode [lockForRead] lets the caller in at once,
    whatever the number of waiting writers, (a) when the caller has an
    entry in the table: the entry and [iActiveReaders] go up by one; and
    (b) when it has none and is the current writer: an entry of 1 is
    inserted and [iActiveReaders] goes up by one. *)
Theorem lockForRead_recursive_grant (tid : Z) (d : Data)
    (Hrec : bRecursive d = true) :
  (∀ n : Z, hashCurrentReaders d !! tid = Some n →
     lockForRead tid d
     = Returned (set_iActiveReaders (iActiveReaders d + 1)
         (set_hashCurrentReaders (<[tid := n + 1]> (hashCurrentReaders d)) d))) ∧
  (hashCurrentReaders d !! tid = None → currentWriter d = tid →
     lockForRead tid d
     = Returned (set_iActiveReaders (iActiveReaders d + 1)
         (set_hashCurrentReaders (<[tid := 1]> (hashCurrentReaders d)) d))).
Proof.
  unfold lockForRead. rewrite Hrec. split.
  - intros n ->. reflexivity.
  - intros -> ->. by rewrite Z.eqb_refl.
Qed.

Lemma lockForRead_recursive_grant_witness :
  lockForRead 5 (mkData 0 true 2 0 0 3 {[5 := 2]})
  = Returned (mkData 0 true 3 0 0 3 (<[5 := 3]> {[5 := 2]})) ∧
  lockForRead 5 (mkData 5 true 0 1 0 3 ∅)
  = Returned (mkData 5 true 1 1 0 3 (<[5 := 1]> ∅)).
Proof.
  split.
  - etrans.
    + apply (proj1 (lockForRead_recursive_grant 5
                      (mkData 0 true 2 0 0 3 {[5 := 2]}) eq_refl) 2).
      vm_compute. reflexivity.
    + vm_compute. reflexivity.
  - etrans.
    + apply (proj2 (lockForRead_recursive_grant 5
                      (mkData 5 true 0 1 0 3 ∅) eq_refl));
        vm_compute; reflexivity.
    + vm_compute. reflexivity.
Defined.

(** C2 as it is written fails on a lock that is not recursive: there
    [self] stays the null handle, and that is what [currentWriter] is set
    to when thread 7 is let in. *)
Lemma lockForWrite_nonrecursive_writer_is_null :
  lockForWrite 7 (Data_new false) = Returned (mkData 0 false 0 1 0 0 ∅) ∧
  currentWriter (mkData 0 false 0 1 0 0 ∅) ≠ 7.
Proof. split; [reflexivity | simpl; lia]. Qed.

(** C2, amended: [lockForWrite] waits exactly while a writer is active or
    there are more active readers than the caller's own recorded read
    locks (none on a lock that is not recursive).  The guard is tested at
    the call and after every wake-up.  When it fails, [currentWriter] is
    set to [self], which is the caller on a recursive lock and the null
    handle otherwise, and [iActiveWriters] is incremented.  On a recursive
    lock the current writer is let in again at once, with only
    [iActiveWriters] incremented.  In particular the test lets in a thread
    whose own read locks are the only active ones. *)
Theorem lockForWrite_waits_for_others (tid : Z) (d : Data) :
  let self := if bRecursive d then tid else 0 in
  let ownReaders :=
    if bRecursive d then default 0 (hashCurrentReaders d !! tid) else 0 in
  (* re-entry of the writer *)
  (bRecursive d = true → currentWriter d = tid →
     lockForWrite tid d = Returned (set_iActiveWriters (iActiveWriters d + 1) d)) ∧
  (* the call of any other thread *)
  ((bRecursive d = true → currentWriter d ≠ tid) →
     (0 < iActiveWriters d ∨ ownReaders < iActiveReaders d →
        lockForWrite tid d
        = Blocked (set_iWaitingWriters (iWaitingWriters d + 1) d)
                  (self, ownReaders)) ∧
     (¬ (0 < iActiveWriters d ∨ ownReaders < iActiveReaders d) →
        lockForWrite tid d = Returned (write_granted self d) ∧
        currentWriter (write_granted self d) = self ∧
        iActiveWriters (write_granted self d) = iActiveWriters d + 1) ∧
     (iActiveWriters d = 0 → iActiveReaders d = ownReaders →
        lockForWrite tid d = Returned (write_granted self d))) ∧
  (* every return from [writerWait.wait], in whatever state [d'] *)
  (∀ d' : Data,
     let woken := set_iWaitingWriters (iWaitingWriters d' - 1) d' in
     (0 < iActiveWriters d' ∨ ownReaders < iActiveReaders d' →
        lockForWrite_wake (self, ownReaders) d'
        = Blocked (set_iWaitingWriters (iWaitingWriters woken + 1) woken)
                  (self, ownReaders)) ∧
     (¬ (0 < iActiveWriters d' ∨ ownReaders < iActiveReaders d') →
        lockForWrite_wake (self, ownReaders) d'
        = Returned (write_granted self woken) ∧
        currentWriter (write_granted self woken) = self ∧
        iActiveWriters (write_granted self woken) = iActiveWriters d' + 1)).
Proof.
  intros self ownReaders.
  assert (Hcall : (bRecursive d = true → currentWriter d ≠ tid) →
            lockForWrite tid d = lockForWrite_loop self ownReaders d).
  { intros Hcw. unfold lockForWrite, self, ownReaders.
    destruct (bRecursive d); [|done].
    destruct (Z.eqb_spec (currentWriter d) tid) as [E|_]; [by destruct Hcw|].
    by destruct (hashCurrentReaders d !! tid). }
  split; [|split].
  - intros Hrec Hcw. unfold lockForWrite. by rewrite Hrec, Hcw, Z.eqb_refl.
  - intros Hcw. rewrite (Hcall Hcw). unfold lockForWrite_loop. repeat split.
    + intros Hg. by rewrite (proj2 (write_must_wait_spec _ _) Hg).
    + by rewrite (write_must_wait_false _ _ H).
    + intros Haw Har. rewrite write_must_wait_false; [done|lia].
  - intros d' woken. unfold lockForWrite_wake, lockForWrite_loop. simpl. split.
    + intros Hg. rewrite (proj2 (write_must_wait_spec _ _)); [done|exact Hg].
    + intros Hg. rewrite write_must_wait_false; [done|exact Hg].
Qed.

Lemma lockForWrite_waits_for_others_witness :
  (* thread 5 holds two read locks, thread 6 one: 5 must wait for 6 *)
  lockForWrite 5 (mkData 0 true 3 0 0 0 {[5 := 2; 6 := 1]})
  = Blocked (mkData 0 true 3 0 0 1 {[5 := 2; 6 := 1]}) (5, 2) ∧
  (* and is let in at the test once 6 has left *)
  lockForWrite_wake (5, 2) (mkData 0 true 2 0 0 1 {[5 := 2]})
  = Returned (mkData 5 true 2 1 0 0 {[5 := 2]}).
Proof.
  pose proof (lockForWrite_waits_for_others 5
                (mkData 0 true 3 0 0 0 {[5 := 2; 6 := 1]})) as (_ & Hcall & Hwake).
  split.
  - destruct Hcall as (Hblock & _); [simpl; lia|].
    etrans; [apply Hblock | vm_compute; reflexivity].
    right. vm_compute. reflexivity.
  - destruct (Hwake (mkData 0 true 2 0 0 1 {[5 := 2]})) as (_ & Hgrant).
    destruct Hgrant as (Hgrant & _).
    + vm_compute. intros [H|H]; discriminate H.
    + etrans; [exact Hgrant | vm_compute; reflexivity].
Defined.

(** The wake-up the promotion does not get: thread 5 waits in
    [lockForWrite] with its own read lock kept, thread 6 gives back the
    other read lock.  The guard of thread 5 is false from then on, but
    [unlockRead] calls [wakeUp] only when no reader is left at all. *)
Remark promotion_is_not_woken :
  let d := mkData 0 true 2 0 0 1 {[5 := 1; 6 := 1]} in
  unlockRead false 6 d = Released (mkData 0 true 1 0 0 1 {[5 := 1]}) None ∧
  write_must_wait 1 (mkData 0 true 1 0 0 1 {[5 := 1]}) = false.
Proof. split; vm_compute; reflexivity. Qed.

Lemma unlockRead_unfold (QT_NO_DEBUG : bool) (tid : Z) (d : Data) :
  unlockRead QT_NO_DEBUG tid d =
  if Q_ASSERT_aborts QT_NO_DEBUG (0 <? iActiveReaders d) then AssertionFailed
  else if (iActiveReaders d - 1 =? 0) && (iActiveWriters d =? 0)
       then Released (read_released tid d) (Some (wakeUp (read_released tid d)))
       else Released (read_released tid d) None.
Proof.
  unfold unlockRead, read_released, drop.
  destruct (Q_ASSERT_aborts _ _); [done|].
  destruct d as [cw rec ar aw wr ww h]. simpl.
  destruct rec; [|done]. destruct (h !! tid); [|done].
  by destruct (_ <=? _).
Qed.

Lemma unlockWrite_unfold (QT_NO_DEBUG : bool) (d : Data) :
  unlockWrite QT_NO_DEBUG d =
  if Q_ASSERT_aborts QT_NO_DEBUG (0 <? iActiveWriters d) then AssertionFailed
  else if (iActiveWriters d - 1 =? 0) && (iActiveReaders d =? 0)
       then Released (write_released d) (Some (wakeUp (write_released d)))
       else Released (write_released d) None.
Proof.
  unfold unlockWrite, write_released.
  destruct (Q_ASSERT_aborts _ _); [done|].
  destruct d as [cw rec ar aw wr ww h]. simpl.
  destruct (aw - 1 =? 0); [|done]. by destruct (ar =? 0).
Qed.

Lemma wakeUp_spec (d : Data) :
  0 ≤ iWaitingWriters d → 0 ≤ iWaitingReaders d →
  (0 < iWaitingWriters d → wakeUp d = writerWait_wakeOne) ∧
  (¬ 0 < iWaitingWriters d → 0 < iWaitingReaders d →
     wakeUp d = readerWait_wakeAll) ∧
  (¬ 0 < iWaitingWriters d → ¬ 0 < iWaitingReaders d → wakeUp d = no_wake).
Proof.
  intros Hw Hr. unfold wakeUp. repeat split; intros; ztests; simpl; done || lia.
Qed.

(** C5: a release calls [wakeUp] only when it leaves the lock completely
    free (and then it does), and [wakeUp] wakes one waiting writer if there
    is one, else all waiting readers if there are any, else nobody. *)
Theorem release_wakes_when_free (QT_NO_DEBUG : bool) (tid : Z) (d d' : Data)
    (woken : option wake_effect)
    (Hww : 0 ≤ iWaitingWriters d) (Hwr : 0 ≤ iWaitingReaders d)
    (Hrel : unlockRead QT_NO_DEBUG tid d = Released d' woken ∨
            unlockWrite QT_NO_DEBUG d = Released d' woken) :
  (is_Some woken ↔ iActiveReaders d' = 0 ∧ iActiveWriters d' = 0) ∧
  (∀ e : wake_effect, woken = Some e →
     (0 < iWaitingWriters d' → e = writerWait_wakeOne) ∧
     (¬ 0 < iWaitingWriters d' → 0 < iWaitingReaders d' →
        e = readerWait_wakeAll) ∧
     (¬ 0 < iWaitingWriters d' → ¬ 0 < iWaitingReaders d' → e = no_wake)).
Proof.
  assert (Hkeep : iWaitingWriters d' = iWaitingWriters d ∧
                  iWaitingReaders d' = iWaitingReaders d ∧
                  (woken = None ∨ woken = Some (wakeUp d')) ∧
                  (is_Some woken ↔ iActiveReaders d' = 0 ∧ iActiveWriters d' = 0)).
  { destruct Hrel as [Hrel|Hrel].
    - rewrite unlockRead_unfold in Hrel.
      destruct (Q_ASSERT_aborts _ _); [done|].
      destruct (Z.eqb_spec (iActiveReaders d - 1) 0) as [Ea|Ea];
        destruct (Z.eqb_spec (iActiveWriters d) 0) as [Eb|Eb];
        simpl in Hrel; injection Hrel as <- <-; simpl;
        (split; [done|split; [done|split; [by auto|]]]);
        rewrite ?is_Some_alt; intuition (done || lia).
    - rewrite unlockWrite_unfold in Hrel.
      destruct (Q_ASSERT_aborts _ _); [done|].
      destruct (Z.eqb_spec (iActiveWriters d - 1) 0) as [Ea|Ea];
        destruct (Z.eqb_spec (iActiveReaders d) 0) as [Eb|Eb];
        simpl in Hrel; injection Hrel as <- <-; simpl;
        (split; [done|split; [done|split; [by auto|]]]);
        rewrite ?is_Some_alt; intuition (done || lia). }
  destruct Hkeep as (Ew & Er & Hwoken & Hfree). split; [exact Hfree|].
  intros e He. destruct Hwoken as [->| ->]; [done|]. injection He as <-.
  apply wakeUp_spec; lia.
Qed.

Lemma release_wakes_when_free_witness :
  (is_Some (Some writerWait_wakeOne)
   ↔ iActiveReaders (mkData 0 false 0 0 2 1 ∅) = 0 ∧
     iActiveWriters (mkData 0 false 0 0 2 1 ∅) = 0) ∧
  (∀ e : wake_effect, Some writerWait_wakeOne = Some e →
     (0 < iWaitingWriters (mkData 0 false 0 0 2 1 ∅) → e = writerWait_wakeOne) ∧
     (¬ 0 < iWaitingWriters (mkData 0 false 0 0 2 1 ∅) →
      0 < iWaitingReaders (mkData 0 false 0 0 2 1 ∅) →
        e = readerWait_wakeAll) ∧
     (¬ 0 < iWaitingWriters (mkData 0 false 0 0 2 1 ∅) →
      ¬ 0 < iWaitingReaders (mkData 0 false 0 0 2 1 ∅) → e = no_wake)).
Proof.
  apply (release_wakes_when_free false 9 (mkData 0 false 1 0 2 1 ∅)).
  - simpl. lia.
  - simpl. lia.
  - left. reflexivity.
Defined.

(** C7 as it is written fails: thread 1 holds the read lock (resp. the
    write lock) of a recursive lock and thread 2, which holds nothing,
    calls the release.  The assertion looks at the counter only, the call
    returns and the counter of thread 1's lock is gone. *)
Lemma release_by_stranger_goes_through :
  (run false (sys_new true) [Call 1 AcquireRead]
   = Some (mkSys (mkData 0 true 1 0 0 0 {[1 := 1]}) ∅ ∅ {[1 := 1]} ∅) ∧
   ({[1 := 1]} : gmap Z Z) !! 2 = None ∧
   unlockRead false 2 (mkData 0 true 1 0 0 0 {[1 := 1]})
   = Released (mkData 0 true 0 0 0 0 {[1 := 1]}) (Some no_wake)) ∧
  (run false (sys_new true) [Call 1 AcquireWrite]
   = Some (mkSys (mkData 1 true 0 1 0 0 ∅) ∅ ∅ ∅ {[1 := 1]}) ∧
   ({[1 := 1]} : gmap Z Z) !! 2 = None ∧
   call false 2 ReleaseWrite (mkData 1 true 0 1 0 0 ∅)
   = Some (mkData 0 true 0 0 0 0 ∅)).
Proof. repeat split; vm_compute; reflexivity. Qed.

(** C7, amended: with [Q_ASSERT] active, a release called while the
    counter of its kind is not positive fails the assertion before
    anything is changed, so a release that returns never leaves the
    counter below zero.  The assertion is on the counter alone: while it
    is positive the release returns for every caller. *)
Theorem release_asserts_counter (tid : Z) (d : Data) :
  (iActiveReaders d ≤ 0 → unlockRead false tid d = AssertionFailed) ∧
  (iActiveWriters d ≤ 0 → unlockWrite false d = AssertionFailed) ∧
  (∀ d' w, unlockRead false tid d = Released d' w →
     0 ≤ iActiveReaders d' ∧ iActiveReaders d' = iActiveReaders d - 1) ∧
  (∀ d' w, unlockWrite false d = Released d' w →
     0 ≤ iActiveWriters d' ∧ iActiveWriters d' = iActiveWriters d - 1) ∧
  (0 < iActiveReaders d → ∃ d' w, unlockRead false tid d = Released d' w) ∧
  (0 < iActiveWriters d → ∃ d' w, unlockWrite false d = Released d' w).
Proof.
  rewrite unlockRead_unfold, unlockWrite_unfold. unfold Q_ASSERT_aborts. simpl.
  split; [|split; [|split; [|split; [|split]]]].
  - intros H. by destruct (Z.ltb_spec 0 (iActiveReaders d)); [lia|].
  - intros H. by destruct (Z.ltb_spec 0 (iActiveWriters d)); [lia|].
  - intros d' w. destruct (Z.ltb_spec 0 (iActiveReaders d)); [simpl|done].
    destruct (_ && _); intros Hr; injection Hr as <- <-; simpl; lia.
  - intros d' w. destruct (Z.ltb_spec 0 (iActiveWriters d)); [simpl|done].
    destruct (_ && _); intros Hr; injection Hr as <- <-; simpl; lia.
  - intros H. destruct (Z.ltb_spec 0 (iActiveReaders d)); [simpl|lia].
    destruct (_ && _); eauto.
  - intros H. destruct (Z.ltb_spec 0 (iActiveWriters d)); [simpl|lia].
    destruct (_ && _); eauto.
Qed.

Lemma release_asserts_counter_witness :
  unlockRead false 4 (Data_new true) = AssertionFailed ∧
  unlockWrite false (Data_new true) = AssertionFailed.
Proof.
  pose proof (release_asserts_counter 4 (Data_new true)) as (Hr & Hw & _).
  split; [apply Hr | apply Hw]; simpl; lia.
Defined.

(** C9: taking and giving back the write lock leaves the read state of
    the caller alone.  A [lockForWrite] that returns and an [unlockWrite]
    change [iActiveWriters] and [currentWriter] only; a [lockForWrite]
    that has to wait counts itself in [iWaitingWriters] for the time of
    the wait and changes nothing else.  The table of read locks and
    [iActiveReaders] are the same before and after. *)
Theorem write_lock_keeps_read_state (QT_NO_DEBUG : bool) (tid : Z) (d : Data) :
  match lockForWrite tid d with
  | Returned d' => same_but_writer d d'
  | Blocked d' _ => d' = set_iWaitingWriters (iWaitingWriters d + 1) d
  end ∧
  (∀ k : Z * Z,
     match lockForWrite_wake k d with
     | Returned d' =>
         same_but_writer (set_iWaitingWriters (iWaitingWriters d - 1) d) d'
     | Blocked d' k' => d' = d ∧ k' = k
     end) ∧
  match unlockWrite QT_NO_DEBUG d with
  | Released d' _ => same_but_writer d d'
  | AssertionFailed => True
  end ∧
  (∀ d1 d2 : Data,
     call QT_NO_DEBUG tid AcquireWrite d = Some d1 →
     call QT_NO_DEBUG tid ReleaseWrite d1 = Some d2 →
     hashCurrentReaders d2 !! tid = hashCurrentReaders d !! tid ∧
     iActiveReaders d2 = iActiveReaders d ∧
     iActiveWriters d2 = iActiveWriters d).
Proof.
  assert (Hloop : ∀ self n d0,
            match lockForWrite_loop self n d0 with
            | Returned d' => same_but_writer d0 d'
            | Blocked d' k' =>
                d' = set_iWaitingWriters (iWaitingWriters d0 + 1) d0 ∧
                k' = (self, n)
            end).
  { intros self n d0. unfold lockForWrite_loop.
    by destruct (write_must_wait n d0). }
  assert (Hacq : match lockForWrite tid d with
                 | Returned d' => same_but_writer d d' ∧
                                  iActiveWriters d' = iActiveWriters d + 1
                 | Blocked d' _ =>
                     d' = set_iWaitingWriters (iWaitingWriters d + 1) d
                 end).
  { unfold lockForWrite. destruct (bRecursive d).
    - destruct (currentWriter d =? tid); [done|].
      unfold lockForWrite_loop. by destruct (write_must_wait _ d).
    - unfold lockForWrite_loop. by destruct (write_must_wait _ d). }
  assert (Hrel : ∀ d0, match unlockWrite QT_NO_DEBUG d0 with
                 | Released d' _ => same_but_writer d0 d' ∧
                                    iActiveWriters d' = iActiveWriters d0 - 1
                 | AssertionFailed => True
                 end).
  { intros d0. rewrite unlockWrite_unfold. destruct (Q_ASSERT_aborts _ _); [done|].
    by destruct (_ && _). }
  split; [|split; [|split]].
  - destruct (lockForWrite tid d); [apply Hacq | exact Hacq].
  - intros [self n]. unfold lockForWrite_wake. simpl.
    specialize (Hloop self n (set_iWaitingWriters (iWaitingWriters d - 1) d)).
    destruct (lockForWrite_loop _ _ _) as [d'|d' k']; [done|].
    destruct Hloop as [-> ->]. split; [|done].
    destruct d as [cw rec ar aw wr ww h]. unfold set_iWaitingWriters. simpl.
    f_equal. lia.
  - specialize (Hrel d). destruct (unlockWrite _ d); [done | apply Hrel].
  - intros d1 d2. unfold call. intros H1 H2.
    destruct (lockForWrite tid d) as [d1'|]; [|done]. injection H1 as ->.
    specialize (Hrel d1).
    destruct (unlockWrite _ d1) as [|d2' w]; [done|]. injection H2 as ->.
    destruct Hacq as ((_ & Ea & _ & _ & Eh) & Ew).
    destruct Hrel as ((_ & Ea' & _ & _ & Eh') & Ew').
    rewrite Eh', Eh, Ea', Ea, Ew', Ew. repeat split; lia.
Qed.

Lemma write_lock_keeps_read_state_witness :
  (* thread 5 holds two read locks, takes the write lock and returns it *)
  let d := mkData 0 true 2 0 0 0 {[5 := 2]} in
  let d1 := mkData 5 true 2 1 0 0 {[5 := 2]} in
  let d2 := mkData 0 true 2 0 0 0 {[5 := 2]} in
  call false 5 AcquireWrite d = Some d1 ∧
  call false 5 ReleaseWrite d1 = Some d2 ∧
  hashCurrentReaders d2 !! 5 = hashCurrentReaders d !! 5 ∧
  iActiveReaders d2 = iActiveReaders d ∧
  iActiveWriters d2 = iActiveWriters d.
Proof.
  intros d d1 d2.
  assert (H1 : call false 5 AcquireWrite d = Some d1) by (vm_compute; reflexivity).
  assert (H2 : call false 5 ReleaseWrite d1 = Some d2) by (vm_compute; reflexivity).
  split; [exact H1|]. split; [exact H2|].
  exact (proj2 (proj2 (proj2 (write_lock_keeps_read_state false 5 d))) d1 d2 H1 H2).
Defined.

(** C10: the releases look at the counters, never at the caller.
    [unlockWrite] takes one off [iActiveWriters] for any thread, the
    current writer or not; on a recursive lock [unlockRead] by a thread
    without an entry in the table takes one off [iActiveReaders] and
    leaves the table as it is, after which [iActiveReaders] is no longer
    the sum of the table. *)
Theorem release_ignores_caller (QT_NO_DEBUG : bool) (tid : Z) (d : Data) :
  (0 < iActiveWriters d →
     ∃ d', call QT_NO_DEBUG tid ReleaseWrite d = Some d' ∧
           iActiveWriters d' = iActiveWriters d - 1) ∧
  (bRecursive d = true → hashCurrentReaders d !! tid = None →
   0 < iActiveReaders d →
     ∃ d', call QT_NO_DEBUG tid ReleaseRead d = Some d' ∧
           iActiveReaders d' = iActiveReaders d - 1 ∧
           hashCurrentReaders d' = hashCurrentReaders d ∧
           (iActiveReaders d = msum (hashCurrentReaders d) →
            iActiveReaders d' ≠ msum (hashCurrentReaders d'))).
Proof.
  unfold call. rewrite unlockRead_unfold, unlockWrite_unfold.
  unfold Q_ASSERT_aborts. split.
  - intros H. destruct (Z.ltb_spec 0 (iActiveWriters d)); [|lia].
    rewrite andb_false_r. destruct (_ && _); eexists; split; done.
  - intros Hrec Hno H. destruct (Z.ltb_spec 0 (iActiveReaders d)); [|lia].
    rewrite andb_false_r.
    assert (hashCurrentReaders (read_released tid d) = hashCurrentReaders d) as Eh.
    { unfold read_released, drop. simpl. by rewrite Hrec, Hno. }
    destruct (_ && _); eexists; (split; [done|]); rewrite Eh;
      simpl; (split; [done|split; [done|lia]]).
Qed.

Lemma release_ignores_caller_witness :
  (∃ d', call false 2 ReleaseWrite (mkData 1 true 0 1 0 0 ∅) = Some d' ∧
         iActiveWriters d' = iActiveWriters (mkData 1 true 0 1 0 0 ∅) - 1) ∧
  (∃ d', call false 2 ReleaseRead (mkData 0 true 1 0 0 0 {[1 := 1]}) = Some d' ∧
         iActiveReaders d' = iActiveReaders (mkData 0 true 1 0 0 0 {[1 := 1]}) - 1 ∧
         hashCurrentReaders d' = hashCurrentReaders (mkData 0 true 1 0 0 0 {[1 := 1]}) ∧
         (iActiveReaders (mkData 0 true 1 0 0 0 {[1 := 1]})
          = msum (hashCurrentReaders (mkData 0 true 1 0 0 0 {[1 := 1]})) →
          iActiveReaders d' ≠ msum (hashCurrentReaders d'))).
Proof.
  split.
  - apply (proj1 (release_ignores_caller false 2 (mkData 1 true 0 1 0 0 ∅))).
    simpl. lia.
  - apply (proj2 (release_ignores_caller false 2 (mkData 0 true 1 0 0 0 {[1 := 1]}))).
    + reflexivity.
    + vm_compute. reflexivity.
    + simpl. lia.
Defined.

(** Without the assertion, in a build with [QT_NO_DEBUG], a release on a
    lock that nobody holds takes the counter below zero. *)
Remark release_without_assertion :
  unlockRead true 1 (Data_new false)
  = Released (mkData 0 false (-1) 0 0 0 ∅) None ∧
  unlockWrite true (Data_new false)
  = Released (mkData 0 false 0 (-1) 0 0 ∅) None.
Proof. split; vm_compute; reflexivity. Qed.

(** ** Nested read locks *)

Lemma calls_app (QT_NO_DEBUG : bool) (tid : Z) (os1 os2 : list op) (d d1 : Data) :
  calls QT_NO_DEBUG tid os1 d = Some d1 →
  calls QT_NO_DEBUG tid (os1 ++ os2) d = calls QT_NO_DEBUG tid os2 d1.
Proof.
  revert d. induction os1 as [|o os1 IH]; simpl; intros d H.
  - by injection H as ->.
  - destruct (call QT_NO_DEBUG tid o d); [by apply IH | done].
Qed.

Lemma drop_grant (t : Z) (h : gmap Z Z) :
  positive_counts h → drop t (grant t h) = h.
Proof.
  intros Hpos. unfold drop, grant. rewrite lookup_insert_eq.
  destruct (h !! t) as [v|] eqn:E; simpl.
  - pose proof (Hpos _ _ E). destruct (Z.leb_spec (v + 1 - 1) 0); [lia|].
    rewrite insert_insert_eq. apply insert_id. rewrite E. f_equal. lia.
  - by apply delete_insert_id.
Qed.

Lemma positive_counts_grant (t : Z) (h : gmap Z Z) :
  positive_counts h → positive_counts (grant t h).
Proof.
  intros Hpos k v. unfold grant. rewrite lookup_insert.
  case_decide as E.
  - intros [= <-]. destruct (h !! t) as [w|] eqn:Ew; simpl; [|lia].
    pose proof (Hpos _ _ Ew). lia.
  - apply Hpos.
Qed.

Lemma lockForRead_returned_recursive (tid : Z) (d d1 : Data) :
  bRecursive d = true →
  lockForRead tid d = Returned d1 → d1 = read_taken tid d.
Proof.
  intros Hrec. unfold lockForRead, read_taken, grant. rewrite !Hrec.
  destruct (hashCurrentReaders d !! tid) as [n|] eqn:E; simpl.
  - by intros [= <-].
  - destruct (currentWriter d =? tid); [by intros [= <-]|].
    unfold lockForRead_loop. destruct (read_must_wait d); [done|].
    rewrite Hrec. by intros [= <-].
Qed.

Lemma unlockRead_read_taken (QT_NO_DEBUG : bool) (tid : Z) (d : Data) :
  bRecursive d = true → well_formed d →
  call QT_NO_DEBUG tid ReleaseRead (read_taken tid d) = Some d.
Proof.
  intros Hrec [Har _ _ _ Hpos]. unfold call. rewrite unlockRead_unfold.
  assert (Q_ASSERT_aborts QT_NO_DEBUG (0 <? iActiveReaders (read_taken tid d))
          = false) as ->.
  { unfold Q_ASSERT_aborts. simpl.
    destruct (Z.ltb_spec 0 (iActiveReaders d + 1)); [|lia]. apply andb_false_r. }
  assert (read_released tid (read_taken tid d) = d) as ->.
  { unfold read_released, read_taken. simpl. rewrite !Hrec, drop_grant by done.
    destruct d as [cw rec ar aw wr ww h]. unfold set_iActiveReaders. simpl.
    f_equal. lia. }
  by destruct (_ && _).
Qed.

Lemma nested_reads (QT_NO_DEBUG : bool) (tid : Z) (N : nat) :
  ∀ d : Data,
    bRecursive d = true → well_formed d →
    ((1 ≤ N)%nat → is_Some (call QT_NO_DEBUG tid AcquireRead d)) →
    ∃ dN : Data,
      calls QT_NO_DEBUG tid (replicate N AcquireRead) d = Some dN ∧
      iActiveReaders dN = iActiveReaders d + Z.of_nat N ∧
      ((1 ≤ N)%nat →
         hashCurrentReaders dN !! tid
         = Some (default 0 (hashCurrentReaders d !! tid) + Z.of_nat N)) ∧
      calls QT_NO_DEBUG tid (replicate N ReleaseRead) dN = Some d.
Proof.
  induction N as [|N IH]; intros d Hrec Hwf Hfirst.
  - exists d. simpl. repeat split; [lia | lia].
  - destruct Hfirst as [d1 Hd1]; [lia|].
    assert (d1 = read_taken tid d) as ->.
    { unfold call in Hd1.
      destruct (lockForRead tid d) as [d1'|] eqn:E; [|done].
      injection Hd1 as <-. by apply lockForRead_returned_recursive. }
    assert (Hentry : hashCurrentReaders (read_taken tid d) !! tid
                     = Some (default 0 (hashCurrentReaders d !! tid) + 1)).
    { simpl. rewrite Hrec. unfold grant. apply lookup_insert_eq. }
    destruct (IH (read_taken tid d)) as (dN & Hacq & Har & Hcount & Hrel).
    + exact Hrec.
    + destruct Hwf as [Har ? ? ? Hpos]. split; simpl; try done; [lia|].
      rewrite Hrec. by apply positive_counts_grant.
    + intros _. unfold call, lockForRead.
      change (bRecursive (read_taken tid d)) with (bRecursive d).
      rewrite Hrec. by rewrite Hentry.
    + exists dN. split; [|split; [|split]].
      * change (replicate (S N) AcquireRead)
          with ([AcquireRead] ++ replicate N AcquireRead).
        rewrite (calls_app _ _ _ _ _ (read_taken tid d)); [done|].
        unfold calls. by rewrite Hd1.
      * rewrite Har. simpl. lia.
      * intros _. destruct N as [|N].
        -- simpl in Hacq. injection Hacq as <-. rewrite Hentry. f_equal.
        -- rewrite Hcount by lia. rewrite Hentry. simpl. f_equal. lia.
      * change (replicate (S N) ReleaseRead)
          with (ReleaseRead :: replicate N ReleaseRead).
        rewrite replicate_cons_app.
        rewrite (calls_app _ _ _ _ _ _ Hrel). unfold calls.
        by rewrite unlockRead_read_taken.
Qed.

(** C8: on a recursive lock whose state is well formed, a thread that
    takes the read lock [N ≥ 1] times and gives it back [N] times, with
    nothing in between, leaves every field of the state as it found it,
    the table of read locks included: the entry it got in between, with
    [N] holds more than before, is back to what it was, and gone if there
    was none before. *)
Theorem read_lock_reentrancy (QT_NO_DEBUG : bool) (tid : Z) (N : nat) (d : Data)
    (Hrec : bRecursive d = true) (Hwf : well_formed d) (HN : (1 ≤ N)%nat)
    (Hfirst : is_Some (call QT_NO_DEBUG tid AcquireRead d)) :
  calls QT_NO_DEBUG tid (replicate N AcquireRead ++ replicate N ReleaseRead) d
  = Some d ∧
  ∃ dN : Data,
    calls QT_NO_DEBUG tid (replicate N AcquireRead) d = Some dN ∧
    hashCurrentReaders dN !! tid
    = Some (default 0 (hashCurrentReaders d !! tid) + Z.of_nat N) ∧
    iActiveReaders dN = iActiveReaders d + Z.of_nat N ∧
    calls QT_NO_DEBUG tid (replicate N ReleaseRead) dN = Some d.
Proof.
  destruct (nested_reads QT_NO_DEBUG tid N d Hrec Hwf (λ _, Hfirst))
    as (dN & Hacq & Har & Hcount & Hrel).
  split.
  - by rewrite (calls_app _ _ _ _ _ _ Hacq).
  - exists dN. auto.
Qed.

Lemma read_lock_reentrancy_witness :
  calls false 5 (replicate 3 AcquireRead ++ replicate 3 ReleaseRead)
        (mkData 0 true 1 0 0 0 {[6 := 1]})
  = Some (mkData 0 true 1 0 0 0 {[6 := 1]}).
Proof.
  refine (proj1 (read_lock_reentrancy false 5 3
                   (mkData 0 true 1 0 0 0 {[6 := 1]}) eq_refl _ _ _)).
  - split; simpl; try lia.
    intros k v. rewrite lookup_singleton_Some. intros [_ <-]. lia.
  - lia.
  - vm_compute. eauto.
Defined.

(** * The lock among its threads *)

(** ** Sums of hold counts *)

Section Sums.
Implicit Types (h : gmap Z Z) (k t : Z).

Lemma msum_empty : msum ∅ = 0.
Proof. unfold msum. apply map_fold_empty. Qed.

Lemma msum_insert_None h k v :
  h !! k = None → msum (<[k := v]> h) = v + msum h.
Proof.
  intros Hk. unfold msum. rewrite map_fold_insert_L; [done| |done].
  intros. lia.
Qed.

Lemma msum_delete h k v :
  h !! k = Some v → msum h = v + msum (delete k h).
Proof.
  intros Hk. rewrite <- (insert_delete_id h k v Hk) at 1.
  apply msum_insert_None, lookup_delete_eq.
Qed.

Lemma msum_insert_Some h k v v' :
  h !! k = Some v → msum (<[k := v']> h) = msum h + v' - v.
Proof.
  intros Hk. rewrite <- insert_delete_eq.
  rewrite msum_insert_None by apply lookup_delete_eq.
  rewrite (msum_delete h k v Hk). lia.
Qed.

Lemma positive_counts_delete h k :
  positive_counts h → positive_counts (delete k h).
Proof.
  intros Hpos j v. rewrite lookup_delete. case_decide; [done|]. apply Hpos.
Qed.

Lemma msum_nonneg h : positive_counts h → 0 ≤ msum h.
Proof.
  induction h as [|k v h Hk IH] using map_ind; intros Hpos.
  - by rewrite msum_empty.
  - rewrite msum_insert_None by done.
    assert (0 < v) by (apply (Hpos k); apply lookup_insert_eq).
    assert (0 ≤ msum h); [|lia].
    apply IH. intros j w Hj. apply (Hpos j).
    rewrite lookup_insert_ne; [done|]. intros ->. congruence.
Qed.

Lemma msum_lookup_le h k v :
  positive_counts h → h !! k = Some v → v ≤ msum h.
Proof.
  intros Hpos Hk. rewrite (msum_delete h k v Hk).
  pose proof (msum_nonneg _ (positive_counts_delete h k Hpos)). lia.
Qed.

Lemma msum_none_left h :
  positive_counts h → msum h ≤ 0 → h = ∅.
Proof.
  intros Hpos Hle. apply map_empty. intros k.
  destruct (h !! k) as [v|] eqn:Hk; [|done].
  pose proof (msum_lookup_le h k v Hpos Hk). pose proof (Hpos k v Hk). lia.
Qed.

(** If one entry accounts for the whole sum, there is no other. *)
Lemma msum_only h k v :
  positive_counts h → h !! k = Some v → msum h ≤ v →
  ∀ j, j ≠ k → h !! j = None.
Proof.
  intros Hpos Hk Hle j Hj.
  rewrite (msum_delete h k v Hk) in Hle.
  assert (delete k h = ∅) as E.
  { apply msum_none_left; [by apply positive_counts_delete | lia]. }
  rewrite <- (lookup_delete_ne h k j) by done. by rewrite E.
Qed.

Lemma msum_grant t h : msum (grant t h) = msum h + 1.
Proof.
  unfold grant. destruct (h !! t) as [v|] eqn:E; simpl.
  - rewrite (msum_insert_Some h t v) by done. lia.
  - rewrite msum_insert_None by done. lia.
Qed.

Lemma positive_counts_drop t h :
  positive_counts h → positive_counts (drop t h).
Proof.
  intros Hpos. unfold drop. destruct (h !! t) as [n|] eqn:E; [|done].
  destruct (Z.leb_spec (n - 1) 0).
  - by apply positive_counts_delete.
  - intros j v. rewrite lookup_insert. case_decide; [|apply Hpos].
    intros [= <-]. lia.
Qed.

Lemma msum_drop t h n :
  positive_counts h → h !! t = Some n → msum (drop t h) = msum h - 1.
Proof.
  intros Hpos E. unfold drop. rewrite E. pose proof (Hpos _ _ E).
  destruct (Z.leb_spec (n - 1) 0).
  - rewrite (msum_delete h t n E). lia.
  - rewrite (msum_insert_Some h t n) by done. lia.
Qed.

Lemma lookup_grant_ne t h k : k ≠ t → grant t h !! k = h !! k.
Proof. intros. unfold grant. by rewrite lookup_insert_ne. Qed.

Lemma lookup_grant_eq t h :
  grant t h !! t = Some (default 0 (h !! t) + 1).
Proof. unfold grant. apply lookup_insert_eq. Qed.

Lemma is_Some_grant t h k :
  is_Some (grant t h !! k) ↔ k = t ∨ is_Some (h !! k).
Proof.
  destruct (decide (k = t)) as [->|Hne].
  - rewrite lookup_grant_eq. split; [intros _; by left | intros _; eauto].
  - rewrite lookup_grant_ne by done. split; [by right | by intros [?|?]].
Qed.

Lemma lookup_drop_ne t h k : k ≠ t → drop t h !! k = h !! k.
Proof.
  intros. unfold drop. destruct (h !! t); [|done].
  destruct (_ <=? _); [by rewrite lookup_delete_ne | by rewrite lookup_insert_ne].
Qed.

Lemma is_Some_drop t h k : is_Some (drop t h !! k) → is_Some (h !! k).
Proof.
  destruct (decide (k = t)) as [->|Hne].
  - unfold drop. destruct (h !! t) eqn:E; [by eauto|]. by rewrite E.
  - by rewrite lookup_drop_ne.
Qed.

(** The last hold goes with the entry, any other leaves one less. *)
Lemma lookup_drop_eq t h n :
  positive_counts h → h !! t = Some n →
  drop t h !! t = if decide (n = 1) then None else Some (n - 1).
Proof.
  intros Hpos E. unfold drop. rewrite E. pose proof (Hpos _ _ E).
  destruct (Z.leb_spec (n - 1) 0); case_decide; try lia.
  - apply lookup_delete_eq.
  - apply lookup_insert_eq.
Qed.
End Sums.

(** ** The invariant *)

Lemma consistent_read_taken (t : Z) (d : Data) (R W : gmap Z Z) :
  consistent d R W →
  (∀ t1, is_Some (W !! t1) → t1 = t) →
  consistent (read_taken t d) (grant t R) W.
Proof.
  intros (HpR & HpW & Har & Haw & Hw & Hrw & Hh & Hcw) Hno.
  unfold consistent, read_taken. simpl.
  split; [by apply positive_counts_grant|].
  split; [done|].
  split; [rewrite msum_grant; lia|].
  split; [done|].
  split; [done|].
  split.
  { intros t1 t2 H1 [->|H2]%is_Some_grant; [by apply Hno | by apply Hrw]. }
  split; [|done].
  destruct (bRecursive d); [by rewrite Hh | done].
Qed.

Lemma consistent_no_writer (d : Data) (R W : gmap Z Z) :
  consistent d R W → iActiveWriters d ≤ 0 → W = ∅.
Proof.
  intros (_ & HpW & _ & Haw & _) Hle. apply msum_none_left; [done|lia].
Qed.

Lemma consistent_write_granted (t self n : Z) (d : Data) (R W : gmap Z Z) :
  consistent d R W → t ≠ 0 →
  self = (if bRecursive d then t else 0) →
  n = (if bRecursive d then default 0 (R !! t) else 0) →
  write_must_wait n d = false →
  consistent (write_granted self d) R (grant t W).
Proof.
  intros Hc Ht -> -> Hg.
  assert (aw0 : iActiveWriters d ≤ 0 ∧
                iActiveReaders d ≤ (if bRecursive d then default 0 (R !! t) else 0)).
  { unfold write_must_wait in Hg. apply orb_false_iff in Hg as [H1 H2].
    apply Z.ltb_ge in H1, H2. done. }
  destruct aw0 as [Haw0 Har0].
  pose proof (consistent_no_writer _ _ _ Hc Haw0) as ->.
  destruct Hc as (HpR & HpW & Har & Haw & Hw & Hrw & Hh & Hcw).
  assert (Honly : ∀ t2, is_Some (R !! t2) → t2 = t).
  { intros t2 H2. destruct (decide (t2 = t)) as [|Hne]; [done|]. exfalso.
    assert (R !! t2 = None) as E; [|rewrite E in H2; by destruct H2].
    destruct (bRecursive d), (R !! t) as [v|] eqn:Ev; simpl in Har0.
    - apply (msum_only R t v); [done|done|lia|done].
    - rewrite (msum_none_left R); [done|done|lia].
    - rewrite (msum_none_left R); [done|done|lia].
    - rewrite (msum_none_left R); [done|done|lia]. }
  unfold consistent, write_granted. simpl.
  split; [done|].
  split; [by apply positive_counts_grant|].
  split; [done|].
  split; [rewrite msum_grant; lia|].
  split.
  { intros t1 t2 [->|H1]%is_Some_grant [->|H2]%is_Some_grant; try done.
    - rewrite lookup_empty in H2. by destruct H2.
    - rewrite lookup_empty in H1. by destruct H1.
    - rewrite lookup_empty in H1. by destruct H1. }
  split.
  { intros t1 t2 [->|H1]%is_Some_grant H2.
    - symmetry. by apply Honly.
    - rewrite lookup_empty in H1. by destruct H1. }
  split; [done|].
  destruct (bRecursive d); [|done].
  intros t'. rewrite is_Some_grant, lookup_empty. split.
  - intros [->|H]; [done | by destruct H].
  - intros [-> _]. by left.
Qed.

Lemma consistent_write_again (t : Z) (d : Data) (R W : gmap Z Z) :
  consistent d R W → bRecursive d = true → currentWriter d = t → t ≠ 0 →
  consistent (set_iActiveWriters (iActiveWriters d + 1) d) R (grant t W).
Proof.
  intros (HpR & HpW & Har & Haw & Hw & Hrw & Hh & Hcw) Hrec Ecw Ht.
  rewrite Hrec in Hcw.
  assert (Hin : is_Some (W !! t)) by (by apply Hcw).
  unfold consistent. simpl.
  split; [done|].
  split; [by apply positive_counts_grant|].
  split; [done|].
  split; [rewrite msum_grant; lia|].
  split.
  { intros t1 t2 H1 H2. apply Hw.
    - apply is_Some_grant in H1 as [->|]; done.
    - apply is_Some_grant in H2 as [->|]; done. }
  split.
  { intros t1 t2 H1 H2. apply Hrw; [|done].
    apply is_Some_grant in H1 as [->|]; done. }
  split; [done|].
  rewrite Hrec. intros t'. rewrite is_Some_grant, <- Hcw. split.
  - intros [->|]; done.
  - by right.
Qed.

Lemma consistent_read_released (t n : Z) (d : Data) (R W : gmap Z Z) :
  consistent d R W → R !! t = Some n →
  consistent (read_released t d) (drop t R) W ∧ 0 < iActiveReaders d.
Proof.
  intros (HpR & HpW & Har & Haw & Hw & Hrw & Hh & Hcw) Hn.
  split.
  - unfold consistent, read_released. simpl.
    split; [by apply positive_counts_drop|].
    split; [done|].
    split; [rewrite (msum_drop t R n) by done; lia|].
    split; [done|].
    split; [done|].
    split.
    { intros t1 t2 H1 H2. apply Hrw; [done|]. by apply is_Some_drop in H2. }
    split; [|done].
    destruct (bRecursive d); [by rewrite Hh | done].
  - pose proof (msum_lookup_le R t n HpR Hn). pose proof (HpR t n Hn). lia.
Qed.

Lemma consistent_write_released (t k : Z) (d : Data) (R W : gmap Z Z) :
  consistent d R W → W !! t = Some k →
  consistent (write_released d) R (drop t W) ∧ 0 < iActiveWriters d.
Proof.
  intros (HpR & HpW & Har & Haw & Hw & Hrw & Hh & Hcw) Hk.
  pose proof (HpW t k Hk) as Hkpos.
  assert (Hsum : msum W = k).
  { rewrite (msum_delete W t k Hk).
    assert (delete t W = ∅) as ->; [|rewrite msum_empty; lia].
    apply map_empty. intros j. rewrite lookup_delete. case_decide as E; [done|].
    destruct (W !! j) eqn:Ej; [|done]. destruct E. apply Hw; by eauto. }
  split; [|lia].
  unfold consistent, write_released. simpl.
  split; [done|].
  split; [by apply positive_counts_drop|].
  split; [done|].
  split; [rewrite (msum_drop t W k) by done; lia|].
  split.
  { intros t1 t2 H1 H2. apply Hw; by eapply is_Some_drop. }
  split.
  { intros t1 t2 H1 H2. apply Hrw; [by eapply is_Some_drop | done]. }
  split; [done|].
  destruct (bRecursive d).
  - intros t'. destruct (Z.eqb_spec (iActiveWriters d - 1) 0) as [E|E].
    + assert (k = 1) as -> by lia. split.
      * intros H. exfalso. pose proof (is_Some_drop _ _ _ H) as H'.
        assert (t' = t) as -> by (apply Hw; by eauto).
        rewrite (lookup_drop_eq t W 1) in H by done. by destruct H.
      * intros [<- ?]. done.
    + rewrite <- Hcw. split; [apply is_Some_drop|].
      intros H. assert (t' = t) as -> by (apply Hw; by eauto).
      rewrite (lookup_drop_eq t W k) by done. case_decide; [lia | by eauto].
  - by destruct (_ =? _).
Qed.

Lemma lockForRead_loop_invariant (t self : Z) (d : Data) (R W : gmap Z Z) :
  consistent d R W →
  self = (if bRecursive d then t else 0) →
  (bRecursive d = true → R !! t = None) →
  match lockForRead_loop self d with
  | Returned d1 => consistent d1 (grant t R) W ∧ keeps d d1 0 0
  | Blocked d1 self' => consistent d1 R W ∧ keeps d d1 1 0 ∧ self' = self
  end.
Proof.
  intros Hc -> Hnone. unfold lockForRead_loop.
  destruct (read_must_wait d) eqn:Hg.
  - split; [exact Hc|]. keeps_tac.
  - assert (iActiveWriters d ≤ 0) as Haw.
    { unfold read_must_wait in Hg. apply orb_false_iff in Hg as [H1 _].
      by apply Z.ltb_ge in H1. }
    pose proof (consistent_no_writer _ _ _ Hc Haw) as HW.
    assert (Htaken : consistent (read_taken t d) (grant t R) W).
    { apply consistent_read_taken; [done|]. intros t1 [? H1].
      rewrite HW, lookup_empty in H1. done. }
    split.
    + destruct (bRecursive d) eqn:Hrec.
      * unfold read_taken in Htaken. rewrite Hrec in Htaken.
        destruct Hc as (_ & _ & _ & _ & _ & _ & Hh & _). rewrite Hrec in Hh.
        unfold grant in Htaken at 1. rewrite Hh, (Hnone eq_refl) in Htaken.
        rewrite Hh. exact Htaken.
      * unfold read_taken in Htaken. rewrite Hrec in Htaken. exact Htaken.
    + destruct (bRecursive d); keeps_tac.
Qed.

Lemma lockForRead_invariant (t : Z) (d : Data) (R W : gmap Z Z) :
  consistent d R W → t ≠ 0 →
  match lockForRead t d with
  | Returned d1 => consistent d1 (grant t R) W ∧ keeps d d1 0 0
  | Blocked d1 self =>
      consistent d1 R W ∧ keeps d d1 1 0 ∧
      self = (if bRecursive d then t else 0) ∧
      (bRecursive d = true → R !! t = None)
  end.
Proof.
  intros Hc Ht. unfold lockForRead.
  pose proof Hc as (HpR & HpW & Har & Haw & Hw & Hrw & Hh & Hcw).
  destruct (bRecursive d) eqn:Hrec.
  - simpl. rewrite Hh. destruct (R !! t) as [n|] eqn:En.
    + split; [|keeps_tac].
      pose proof (consistent_read_taken t d R W Hc) as Htaken.
      unfold read_taken in Htaken. rewrite Hrec, Hh in Htaken.
      unfold grant in Htaken at 1. rewrite En in Htaken. apply Htaken.
      intros t1 H1. apply (Hrw t1 t); by eauto.
    + destruct (Z.eqb_spec (currentWriter d) t) as [Ecw|Ecw].
      * split; [|keeps_tac].
        pose proof (consistent_read_taken t d R W Hc) as Htaken.
        unfold read_taken in Htaken. rewrite Hrec, Hh in Htaken.
        unfold grant in Htaken at 1. rewrite En in Htaken. apply Htaken.
        intros t1 H1. apply Hcw in H1 as [<- _]. done.
      * pose proof (lockForRead_loop_invariant t t d R W Hc) as Hloop.
        rewrite Hrec in Hloop. specialize (Hloop eq_refl (λ _, En)).
        destruct (lockForRead_loop t d); [done|].
        destruct Hloop as (? & ? & ->). done.
  - pose proof (lockForRead_loop_invariant t 0 d R W Hc) as Hloop.
    rewrite Hrec in Hloop. specialize (Hloop eq_refl).
    destruct (lockForRead_loop 0 d).
    + apply Hloop. done.
    + destruct Hloop as (? & ? & ->); done.
Qed.

Lemma lockForRead_wake_invariant (t self : Z) (d : Data) (R W : gmap Z Z) :
  consistent d R W →
  self = (if bRecursive d then t else 0) →
  (bRecursive d = true → R !! t = None) →
  match lockForRead_wake self d with
  | Returned d1 => consistent d1 (grant t R) W ∧ keeps d d1 (-1) 0
  | Blocked d1 self' => consistent d1 R W ∧ keeps d d1 0 0 ∧ self' = self
  end.
Proof.
  intros Hc Hself Hnone. unfold lockForRead_wake.
  pose proof (lockForRead_loop_invariant t self
                (set_iWaitingReaders (iWaitingReaders d - 1) d) R W Hc Hself Hnone)
    as Hloop.
  destruct (lockForRead_loop self _) as [d1|d1 self'].
  - destruct Hloop as (? & Hr & Hwr & Hww). split; [done|].
    keeps_tac.
  - destruct Hloop as (? & (Hr & Hwr & Hww) & ?). split; [done|].
    keeps_tac.
Qed.

Lemma lockForWrite_loop_invariant (t self n : Z) (d : Data) (R W : gmap Z Z) :
  consistent d R W → t ≠ 0 →
  self = (if bRecursive d then t else 0) →
  n = (if bRecursive d then default 0 (R !! t) else 0) →
  match lockForWrite_loop self n d with
  | Returned d1 => consistent d1 R (grant t W) ∧ keeps d d1 0 0
  | Blocked d1 k => consistent d1 R W ∧ keeps d d1 0 1 ∧ k = (self, n)
  end.
Proof.
  intros Hc Ht Hself Hn. unfold lockForWrite_loop.
  destruct (write_must_wait n d) eqn:Hg.
  - split; [exact Hc|]. keeps_tac.
  - split; [by apply (consistent_write_granted t self n d R W)|].
    keeps_tac.
Qed.

Lemma lockForWrite_invariant (t : Z) (d : Data) (R W : gmap Z Z) :
  consistent d R W → t ≠ 0 →
  match lockForWrite t d with
  | Returned d1 => consistent d1 R (grant t W) ∧ keeps d d1 0 0
  | Blocked d1 k =>
      consistent d1 R W ∧ keeps d d1 0 1 ∧
      k = (if bRecursive d then t else 0,
           if bRecursive d then default 0 (R !! t) else 0)
  end.
Proof.
  intros Hc Ht. unfold lockForWrite.
  pose proof Hc as (HpR & HpW & Har & Haw & Hw & Hrw & Hh & Hcw).
  destruct (bRecursive d) eqn:Hrec.
  - simpl. destruct (Z.eqb_spec (currentWriter d) t) as [Ecw|Ecw].
    + split; [by apply consistent_write_again|]. keeps_tac.
    + rewrite Hh.
      pose proof (lockForWrite_loop_invariant t t (default 0 (R !! t)) d R W Hc Ht)
        as Hloop.
      rewrite Hrec in Hloop. specialize (Hloop eq_refl eq_refl).
      replace (match R !! t with Some n => n | None => 0 end)
        with (default 0 (R !! t)) by (by destruct (R !! t)).
      destruct (lockForWrite_loop t _ d); done.
  - pose proof (lockForWrite_loop_invariant t 0 0 d R W Hc Ht) as Hloop.
    rewrite Hrec in Hloop. specialize (Hloop eq_refl eq_refl).
    destruct (lockForWrite_loop 0 0 d); done.
Qed.

Lemma lockForWrite_wake_invariant (t : Z) (k : Z * Z) (d : Data) (R W : gmap Z Z) :
  consistent d R W → t ≠ 0 →
  k = (if bRecursive d then t else 0,
       if bRecursive d then default 0 (R !! t) else 0) →
  match lockForWrite_wake k d with
  | Returned d1 => consistent d1 R (grant t W) ∧ keeps d d1 0 (-1)
  | Blocked d1 k' => consistent d1 R W ∧ keeps d d1 0 0 ∧ k' = k
  end.
Proof.
  intros Hc Ht ->. unfold lockForWrite_wake. simpl.
  pose proof (lockForWrite_loop_invariant t _ _
                (set_iWaitingWriters (iWaitingWriters d - 1) d) R W Hc Ht
                eq_refl eq_refl) as Hloop.
  simpl in Hloop.
  destruct (lockForWrite_loop _ _ _) as [d1|d1 k'].
  - destruct Hloop as (? & Hr & Hwr & Hww). split; [done|].
    keeps_tac.
  - destruct Hloop as (? & (Hr & Hwr & Hww) & ?). split; [done|].
    keeps_tac.
Qed.

(** A release that is paired with an acquire never trips the assertion. *)
Lemma unlockRead_invariant (QT_NO_DEBUG : bool) (t n : Z) (d : Data)
    (R W : gmap Z Z) :
  consistent d R W → R !! t = Some n →
  match unlockRead QT_NO_DEBUG t d with
  | AssertionFailed => False
  | Released d1 _ => consistent d1 (drop t R) W ∧ keeps d d1 0 0
  end.
Proof.
  intros Hc Hn. destruct (consistent_read_released t n d R W Hc Hn) as [Hc' Hpos].
  rewrite unlockRead_unfold. unfold Q_ASSERT_aborts.
  destruct (Z.ltb_spec 0 (iActiveReaders d)); [|lia]. rewrite andb_false_r.
  destruct (_ && _); (split; [done|]); keeps_tac.
Qed.

Lemma unlockWrite_invariant (QT_NO_DEBUG : bool) (t k : Z) (d : Data)
    (R W : gmap Z Z) :
  consistent d R W → W !! t = Some k →
  match unlockWrite QT_NO_DEBUG d with
  | AssertionFailed => False
  | Released d1 _ => consistent d1 R (drop t W) ∧ keeps d d1 0 0
  end.
Proof.
  intros Hc Hk. destruct (consistent_write_released t k d R W Hc Hk) as [Hc' Hpos].
  rewrite unlockWrite_unfold. unfold Q_ASSERT_aborts.
  destruct (Z.ltb_spec 0 (iActiveWriters d)); [|lia]. rewrite andb_false_r.
  destruct (_ && _); (split; [done|]); keeps_tac.
Qed.

Lemma running_spec (t : Z) (s : sys) :
  running t s = true ↔ readerWait s !! t = None ∧ writerWait s !! t = None.
Proof.
  unfold running. by rewrite andb_true_iff, !bool_decide_eq_true.
Qed.

(** The wait conditions are untouched and the holds of the waiting
    threads are what they were. *)
Lemma waiters_consistent_same (s : sys) (d1 : Data) (R' W' : gmap Z Z) :
  waiters_consistent s → keeps (lock s) d1 0 0 →
  (∀ t, readerWait s !! t ≠ None ∨ writerWait s !! t ≠ None →
        R' !! t = readHolds s !! t) →
  waiters_consistent (mkSys d1 (readerWait s) (writerWait s) R' W').
Proof.
  intros (Hr & Hw & Hdisj & Hnr & Hnw) (Erec & Ewr & Eww) HR.
  unfold waiters_consistent. simpl. rewrite Erec.
  split; [|split; [|split; [done|split; lia]]].
  - intros t self Ht. destruct (Hr t self Ht) as [-> Hnone]. split; [done|].
    intros Hrec. rewrite HR; [by apply Hnone|]. left. congruence.
  - intros t k Ht. destruct (Hw t k Ht) as [Hne ->]. split; [done|].
    rewrite HR; [done|]. right. congruence.
Qed.

Lemma waiters_consistent_reader_blocks (s : sys) (d1 : Data) (t self : Z) :
  waiters_consistent s → keeps (lock s) d1 1 0 → running t s = true →
  self = (if bRecursive (lock s) then t else 0) →
  (bRecursive (lock s) = true → readHolds s !! t = None) →
  waiters_consistent
    (mkSys d1 (<[t := self]> (readerWait s)) (writerWait s)
           (readHolds s) (writeHolds s)).
Proof.
  intros (Hr & Hw & Hdisj & Hnr & Hnw) (Erec & Ewr & Eww)
         [Hrt Hwt]%running_spec -> Hnone.
  unfold waiters_consistent. simpl. rewrite Erec.
  split; [|split; [|split; [|split]]].
  - intros t' self'. rewrite lookup_insert. case_decide as E.
    + subst t'. by intros [= <-].
    + apply Hr.
  - exact Hw.
  - intros t'. rewrite lookup_insert. case_decide as E; [subst t'; by right|].
    apply Hdisj.
  - rewrite map_size_insert_None by done. lia.
  - lia.
Qed.

Lemma waiters_consistent_writer_blocks (s : sys) (d1 : Data) (t : Z) (k : Z * Z) :
  waiters_consistent s → keeps (lock s) d1 0 1 → running t s = true →
  t ≠ 0 →
  k = (if bRecursive (lock s) then t else 0,
       if bRecursive (lock s) then default 0 (readHolds s !! t) else 0) →
  waiters_consistent
    (mkSys d1 (readerWait s) (<[t := k]> (writerWait s))
           (readHolds s) (writeHolds s)).
Proof.
  intros (Hr & Hw & Hdisj & Hnr & Hnw) (Erec & Ewr & Eww)
         [Hrt Hwt]%running_spec Hne ->.
  unfold waiters_consistent. simpl. rewrite Erec.
  split; [|split; [|split; [|split]]].
  - exact Hr.
  - intros t' k'. rewrite lookup_insert. case_decide as E.
    + subst t'. by intros [= <-].
    + apply Hw.
  - intros t'. rewrite lookup_insert. case_decide as E; [subst t'; by left|].
    apply Hdisj.
  - lia.
  - rewrite map_size_insert_None by done. lia.
Qed.

Lemma waiters_consistent_reader_leaves (s : sys) (d1 : Data) (t self : Z)
    (R' W' : gmap Z Z) :
  waiters_consistent s → keeps (lock s) d1 (-1) 0 →
  readerWait s !! t = Some self →
  (∀ t', t' ≠ t → R' !! t' = readHolds s !! t') →
  waiters_consistent (mkSys d1 (delete t (readerWait s)) (writerWait s) R' W').
Proof.
  intros (Hr & Hw & Hdisj & Hnr & Hnw) (Erec & Ewr & Eww) Ht HR.
  assert (Hwt : writerWait s !! t = None).
  { destruct (Hdisj t) as [E|E]; [congruence | done]. }
  unfold waiters_consistent. simpl. rewrite Erec.
  split; [|split; [|split; [|split]]].
  - intros t' self'. rewrite lookup_delete. case_decide as E; [done|].
    intros Ht'. destruct (Hr t' self' Ht') as [-> Hnone]. split; [done|].
    intros Hrec. rewrite HR by done. by apply Hnone.
  - intros t' k Ht'. destruct (Hw t' k Ht') as [Hne ->]. split; [done|].
    rewrite HR; [done|]. congruence.
  - intros t'. rewrite lookup_delete. case_decide; [by left | apply Hdisj].
  - rewrite map_size_delete_Some by (by eauto).
    assert (size (readerWait s) ≠ 0%nat).
    { intros E%map_size_empty_inv. rewrite E, lookup_empty in Ht. done. }
    lia.
  - lia.
Qed.

Lemma waiters_consistent_writer_leaves (s : sys) (d1 : Data) (t : Z) (k : Z * Z)
    (W' : gmap Z Z) :
  waiters_consistent s → keeps (lock s) d1 0 (-1) →
  writerWait s !! t = Some k →
  waiters_consistent
    (mkSys d1 (readerWait s) (delete t (writerWait s)) (readHolds s) W').
Proof.
  intros (Hr & Hw & Hdisj & Hnr & Hnw) (Erec & Ewr & Eww) Ht.
  unfold waiters_consistent. simpl. rewrite Erec.
  split; [|split; [|split; [|split]]].
  - exact Hr.
  - intros t' k'. rewrite lookup_delete. case_decide as E; [done|]. apply Hw.
  - intros t'. rewrite lookup_delete. case_decide; [by right | apply Hdisj].
  - lia.
  - rewrite map_size_delete_Some by (by eauto).
    assert (size (writerWait s) ≠ 0%nat).
    { intros E%map_size_empty_inv. rewrite E, lookup_empty in Ht. done. }
    lia.
Qed.

(** ** Every event keeps the invariant *)

Lemma invariant_new (recursive : bool) : invariant (sys_new recursive).
Proof.
  split.
  - unfold consistent. simpl. rewrite msum_empty.
    repeat split; try done.
    + intros t1 t2 [? H]. by rewrite lookup_empty in H.
    + intros t1 t2 [? H]. by rewrite lookup_empty in H.
    + by destruct recursive.
    + destruct recursive; [|done]. intros t. split.
      * intros [? H]. by rewrite lookup_empty in H.
      * intros [<- H]. done.
  - unfold waiters_consistent. simpl. repeat split; try done.
    intros t. by left.
Qed.

Lemma invariant_step (QT_NO_DEBUG : bool) (s s' : sys) (e : event) :
  invariant s → step QT_NO_DEBUG s e = Some s' → invariant s'.
Proof.
  intros [Hc Hwt] Hstep. destruct e as [t o|t]; simpl in Hstep.
  - destruct (Z.eqb_spec t 0) as [|Ht]; [done|]. simpl in Hstep.
    destruct (running t s) eqn:Hrun; [simpl in Hstep|done].
    pose proof Hrun as [Hrt Hwt']%running_spec.
    destruct o.
    + pose proof (lockForRead_invariant t _ _ _ Hc Ht) as Hop.
      destruct (lockForRead t (lock s)) as [d1|d1 self]; injection Hstep as <-.
      * destruct Hop as [Hc1 Hk]. split; [done|].
        apply waiters_consistent_same; [done|done|].
        intros t' Ht'. apply lookup_grant_ne. intros ->. by destruct Ht'.
      * destruct Hop as (Hc1 & Hk & Hself & Hnone). split; [done|].
        by apply waiters_consistent_reader_blocks.
    + pose proof (lockForWrite_invariant t _ _ _ Hc Ht) as Hop.
      destruct (lockForWrite t (lock s)) as [d1|d1 k]; injection Hstep as <-.
      * destruct Hop as [Hc1 Hk]. split; [done|].
        by apply waiters_consistent_same.
      * destruct Hop as (Hc1 & Hk & Hself). split; [done|].
        by apply waiters_consistent_writer_blocks.
    + destruct (readHolds s !! t) as [n|] eqn:Hn; [|done].
      pose proof (unlockRead_invariant QT_NO_DEBUG t n _ _ _ Hc Hn) as Hop.
      destruct (unlockRead QT_NO_DEBUG t (lock s)) as [|d1 w]; [done|].
      injection Hstep as <-. destruct Hop as [Hc1 Hk]. split; [done|].
      apply waiters_consistent_same; [done|done|].
      intros t' Ht'. apply lookup_drop_ne. intros ->. by destruct Ht'.
    + destruct (writeHolds s !! t) as [k|] eqn:Hk'; [|done].
      pose proof (unlockWrite_invariant QT_NO_DEBUG t k _ _ _ Hc Hk') as Hop.
      destruct (unlockWrite QT_NO_DEBUG (lock s)) as [|d1 w]; [done|].
      injection Hstep as <-. destruct Hop as [Hc1 Hk]. split; [done|].
      by apply waiters_consistent_same.
  - pose proof Hwt as (Hr & Hw & Hdisj & Hnr & Hnw).
    destruct (readerWait s !! t) as [self|] eqn:Hrt.
    + destruct (Hr t self Hrt) as [Hself Hnone].
      pose proof (lockForRead_wake_invariant t self _ _ _ Hc Hself Hnone) as Hop.
      destruct (lockForRead_wake self (lock s)) as [d1|d1 self'];
        injection Hstep as <-.
      * destruct Hop as [Hc1 Hk]. split; [done|].
        eapply waiters_consistent_reader_leaves; [done|done|done|].
        intros t' Ht'. by apply lookup_grant_ne.
      * destruct Hop as (Hc1 & Hk & ->). split; [done|].
        rewrite insert_id by done. by apply waiters_consistent_same.
    + destruct (writerWait s !! t) as [k|] eqn:Hwt'; [|done].
      destruct (Hw t k Hwt') as [Ht Hk0].
      pose proof (lockForWrite_wake_invariant t k _ _ _ Hc Ht Hk0) as Hop.
      destruct (lockForWrite_wake k (lock s)) as [d1|d1 k'];
        injection Hstep as <-.
      * destruct Hop as [Hc1 Hk]. split; [done|].
        by eapply waiters_consistent_writer_leaves.
      * destruct Hop as (Hc1 & Hk & ->). split; [done|].
        rewrite insert_id by done. by apply waiters_consistent_same.
Qed.

Lemma invariant_run (QT_NO_DEBUG : bool) (es : list event) :
  ∀ s s' : sys, invariant s → run QT_NO_DEBUG s es = Some s' → invariant s'.
Proof.
  induction es as [|e es IH]; simpl; intros s s' Hinv Hrun.
  - by injection Hrun as <-.
  - destruct (step QT_NO_DEBUG s e) as [s1|] eqn:Hstep; [|done].
    eapply IH; [|done]. by eapply invariant_step.
Qed.

Lemma step_bRecursive (QT_NO_DEBUG : bool) (s s' : sys) (e : event) :
  step QT_NO_DEBUG s e = Some s' → bRecursive (lock s') = bRecursive (lock s).
Proof.
  destruct e as [t []|t]; simpl;
    rewrite ?unlockRead_unfold, ?unlockWrite_unfold;
    unfold lockForRead, lockForWrite, lockForRead_wake, lockForWrite_wake,
           lockForRead_loop, lockForWrite_loop;
    repeat case_match; intros ?; simplify_eq/=; done.
Qed.

Lemma run_bRecursive (QT_NO_DEBUG : bool) (es : list event) :
  ∀ s s' : sys,
    run QT_NO_DEBUG s es = Some s' → bRecursive (lock s') = bRecursive (lock s).
Proof.
  induction es as [|e es IH]; simpl; intros s s' Hrun.
  - by injection Hrun as <-.
  - destruct (step QT_NO_DEBUG s e) as [s1|] eqn:Hstep; [|done].
    rewrite (IH _ _ Hrun). by eapply step_bRecursive.
Qed.

(** The states the threads can bring about are well formed. *)
Lemma invariant_well_formed (s : sys) : invariant s → well_formed (lock s).
Proof.
  intros [(HpR & HpW & Har & Haw & _ & _ & Hh & _) (_ & _ & _ & Hnr & Hnw)].
  split.
  - rewrite Har. by apply msum_nonneg.
  - rewrite Haw. by apply msum_nonneg.
  - lia.
  - lia.
  - rewrite Hh. destruct (bRecursive (lock s)); [done|]. intros k v.
    by rewrite lookup_empty.
Qed.

(** A release paired with an acquire goes through, whatever the build. *)
Lemma paired_release_enabled (QT_NO_DEBUG : bool) (s : sys) (t : Z) :
  invariant s → t ≠ 0 → running t s = true →
  (holds_read s t → is_Some (step QT_NO_DEBUG s (Call t ReleaseRead))) ∧
  (holds_write s t → is_Some (step QT_NO_DEBUG s (Call t ReleaseWrite))).
Proof.
  intros [Hc _] Ht Hrun. unfold holds_read, holds_write. simpl.
  destruct (Z.eqb_spec t 0) as [|_]; [done|]. rewrite Hrun. simpl. split.
  - intros [n Hn]. rewrite Hn.
    pose proof (unlockRead_invariant QT_NO_DEBUG t n _ _ _ Hc Hn) as Hop.
    destruct (unlockRead _ _ _); [done | eauto].
  - intros [k Hk]. rewrite Hk.
    pose proof (unlockWrite_invariant QT_NO_DEBUG t k _ _ _ Hc Hk) as Hop.
    destruct (unlockWrite _ _); [done | eauto].
Qed.

(** C1: mutual exclusion.  In every state that the threads can bring
    about by calling the four operations, releases paired with acquires,
    no two threads hold the write lock, and no thread holds the read lock
    while another holds the write lock.  While [iActiveWriters] is
    positive the only thread that can hold a read lock is the writer, on
    a recursive lock the thread named by [currentWriter]. *)
Theorem mutual_exclusion (QT_NO_DEBUG recursive : bool) (es : list event)
    (s : sys) (t1 t2 : Z)
    (Hrun : run QT_NO_DEBUG (sys_new recursive) es = Some s)
    (Hne : t1 ≠ t2) :
  ¬ (holds_write s t1 ∧ holds_write s t2) ∧
  ¬ (holds_write s t1 ∧ holds_read s t2) ∧
  (0 < iActiveWriters (lock s) →
     ∀ t, holds_read s t →
       holds_write s t ∧ (recursive = true → currentWriter (lock s) = t)).
Proof.
  pose proof (invariant_run _ _ _ _ (invariant_new recursive) Hrun) as [Hc _].
  pose proof (run_bRecursive _ _ _ _ Hrun) as Hrec. simpl in Hrec.
  destruct Hc as (HpR & HpW & Har & Haw & Hw & Hrw & Hh & Hcw).
  unfold holds_write, holds_read. split; [|split].
  - intros [H1 H2]. apply Hne. by apply Hw.
  - intros [H1 H2]. apply Hne. by apply Hrw.
  - intros Hpos t Ht.
    assert (∃ tw, is_Some (writeHolds s !! tw)) as [tw Htw].
    { destruct (decide (writeHolds s = ∅)) as [E|E].
      - rewrite E, msum_empty in Haw. lia.
      - apply map_choose in E as (tw & k & Hk). eauto. }
    assert (tw = t) as -> by (by apply Hrw).
    split; [done|]. intros ->. rewrite Hrec in Hcw. by apply Hcw in Htw as [-> _].
Qed.

Lemma mutual_exclusion_witness :
  let s := mkSys (mkData 2 true 0 1 1 0 ∅) {[3 := 3]} ∅ ∅ {[2 := 1]} in
  ¬ (holds_write s 2 ∧ holds_write s 1) ∧
  ¬ (holds_write s 2 ∧ holds_read s 1) ∧
  (0 < iActiveWriters (lock s) →
     ∀ t, holds_read s t →
       holds_write s t ∧ (true = true → currentWriter (lock s) = t)).
Proof.
  apply (mutual_exclusion false true
           [Call 1 AcquireRead; Call 2 AcquireWrite; Call 1 ReleaseRead;
            Wake 2; Call 3 AcquireRead]).
  - vm_compute. reflexivity.
  - lia.
Defined.

(** C6 as it is written fails on a lock that is not recursive: thread 7
    takes the write lock, [iActiveWriters] is 1 and [currentWriter] is
    still the null handle. *)
Lemma nonrecursive_writer_unnamed :
  run false (sys_new false) [Call 7 AcquireWrite]
  = Some (mkSys (mkData 0 false 0 1 0 0 ∅) ∅ ∅ ∅ {[7 := 1]}) ∧
  ¬ (0 < iActiveWriters (mkData 0 false 0 1 0 0 ∅) →
     currentWriter (mkData 0 false 0 1 0 0 ∅) ≠ 0).
Proof.
  split; [vm_compute; reflexivity|]. simpl. intros H. by apply H.
Qed.

(** C6, amended: in every state that the threads can bring about with
    paired operations, on a recursive lock [currentWriter] names a thread
    if [iActiveWriters] is positive and is null if it is zero; on a lock
    that is not recursive [currentWriter] is null throughout.
    [iActiveWriters] is never negative. *)
Theorem currentWriter_tracks_writers (QT_NO_DEBUG recursive : bool)
    (es : list event) (s : sys)
    (Hrun : run QT_NO_DEBUG (sys_new recursive) es = Some s) :
  0 ≤ iActiveWriters (lock s) ∧
  (recursive = true →
     (0 < iActiveWriters (lock s) → currentWriter (lock s) ≠ 0) ∧
     (iActiveWriters (lock s) = 0 → currentWriter (lock s) = 0)) ∧
  (recursive = false → currentWriter (lock s) = 0).
Proof.
  pose proof (invariant_run _ _ _ _ (invariant_new recursive) Hrun) as Hinv.
  pose proof (invariant_well_formed _ Hinv) as [_ Hnn _ _ _].
  pose proof (run_bRecursive _ _ _ _ Hrun) as Hrec. simpl in Hrec.
  destruct Hinv as [(HpR & HpW & Har & Haw & Hw & Hrw & Hh & Hcw) _].
  rewrite Hrec in Hcw. split; [done|]. split.
  - intros ->. split.
    + intros Hpos Ecw.
      destruct (decide (writeHolds s = ∅)) as [E|E].
      * rewrite E, msum_empty in Haw. lia.
      * apply map_choose in E as (tw & k & Hk).
        assert (is_Some (writeHolds s !! tw)) as [Etw Hnz]%Hcw by eauto.
        congruence.
    + intros Hz. destruct (decide (currentWriter (lock s) = 0)) as [|Hnz]; [done|].
      assert (is_Some (writeHolds s !! currentWriter (lock s))) as [k Hk].
      { by apply Hcw. }
      pose proof (msum_lookup_le _ _ _ HpW Hk). pose proof (HpW _ _ Hk). lia.
  - by intros ->.
Qed.

Lemma currentWriter_tracks_writers_witness :
  let s := mkSys (mkData 2 true 0 1 1 0 ∅) {[3 := 3]} ∅ ∅ {[2 := 1]} in
  0 ≤ iActiveWriters (lock s) ∧
  (true = true →
     (0 < iActiveWriters (lock s) → currentWriter (lock s) ≠ 0) ∧
     (iActiveWriters (lock s) = 0 → currentWriter (lock s) = 0)) ∧
  (true = false → currentWriter (lock s) = 0).
Proof.
  apply (currentWriter_tracks_writers false true
           [Call 1 AcquireRead; Call 2 AcquireWrite; Call 1 ReleaseRead;
            Wake 2; Call 3 AcquireRead]).
  vm_compute. reflexivity.
Defined.

(** * Further properties of the lock *)

Lemma run_new_invariant (QT_NO_DEBUG recursive : bool) (es : list event) (s : sys) :
  run QT_NO_DEBUG (sys_new recursive) es = Some s →
  invariant s ∧ bRecursive (lock s) = recursive.
Proof.
  intros Hrun. split.
  - exact (invariant_run _ _ _ _ (invariant_new recursive) Hrun).
  - exact (run_bRecursive _ _ _ _ Hrun).
Qed.

Lemma run_app (QT_NO_DEBUG : bool) (es1 es2 : list event) (s s1 : sys) :
  run QT_NO_DEBUG s es1 = Some s1 →
  run QT_NO_DEBUG s (es1 ++ es2) = run QT_NO_DEBUG s1 es2.
Proof.
  revert s. induction es1 as [|e es1 IH]; simpl; intros s H.
  - by injection H as ->.
  - destruct (step QT_NO_DEBUG s e); [by apply IH | done].
Qed.

(** X1: the table of read locks is exact.  In every state the threads can
    bring about with paired operations, the table of a recursive lock
    lists exactly the threads that hold a read lock, each with its nesting
    depth, which is positive, and [iActiveReaders] is the sum of the
    table.  On a lock that is not recursive the table stays empty and
    [iActiveReaders] is the number of read locks held. *)
Theorem table_counts_read_holds (QT_NO_DEBUG recursive : bool)
    (es : list event) (s : sys)
    (Hrun : run QT_NO_DEBUG (sys_new recursive) es = Some s) :
  hashCurrentReaders (lock s) = (if recursive then readHolds s else ∅) ∧
  positive_counts (readHolds s) ∧
  iActiveReaders (lock s) = msum (readHolds s) ∧
  (recursive = true →
     iActiveReaders (lock s) = msum (hashCurrentReaders (lock s)) ∧
     ∀ t, holds_read s t ↔ is_Some (hashCurrentReaders (lock s) !! t)).
Proof.
  destruct (run_new_invariant _ _ _ _ Hrun) as [[Hc _] Hrec].
  destruct Hc as (HpR & _ & Har & _ & _ & _ & Hh & _). rewrite Hrec in Hh.
  split; [done|]. split; [done|]. split; [done|].
  intros ->. rewrite Hh. done.
Qed.

Lemma table_counts_read_holds_witness :
  let s := mkSys (mkData 0 true 3 0 0 0 {[1 := 2; 2 := 1]}) ∅ ∅
                 {[1 := 2; 2 := 1]} ∅ in
  hashCurrentReaders (lock s) = readHolds s ∧
  positive_counts (readHolds s) ∧
  iActiveReaders (lock s) = msum (readHolds s) ∧
  (true = true →
     iActiveReaders (lock s) = msum (hashCurrentReaders (lock s)) ∧
     ∀ t, holds_read s t ↔ is_Some (hashCurrentReaders (lock s) !! t)).
Proof.
  apply (table_counts_read_holds false true
           [Call 1 AcquireRead; Call 2 AcquireRead; Call 1 AcquireRead]).
  vm_compute. reflexivity.
Defined.

(** X2: the waiting counters count the waiting threads.  In every
    reachable state [iWaitingReaders] is the number of threads blocked in
    [readerWait], [iWaitingWriters] the number of threads blocked in
    [writerWait], and no thread is blocked in both. *)
Theorem waiting_counters_count_waiters (QT_NO_DEBUG recursive : bool)
    (es : list event) (s : sys)
    (Hrun : run QT_NO_DEBUG (sys_new recursive) es = Some s) :
  iWaitingReaders (lock s) = Z.of_nat (size (readerWait s)) ∧
  iWaitingWriters (lock s) = Z.of_nat (size (writerWait s)) ∧
  (∀ t, ¬ (is_Some (readerWait s !! t) ∧ is_Some (writerWait s !! t))).
Proof.
  destruct (run_new_invariant _ _ _ _ Hrun) as [[_ Hw] _].
  destruct Hw as (_ & _ & Hdisj & Hnr & Hnw).
  split; [done|]. split; [done|].
  intros t [[? H1] [? H2]]. destruct (Hdisj t); congruence.
Qed.

Lemma waiting_counters_count_waiters_witness :
  let s := mkSys (mkData 1 true 0 1 1 1 ∅) {[2 := 2]} {[3 := (3, 0)]}
                 ∅ {[1 := 1]} in
  iWaitingReaders (lock s) = Z.of_nat (size (readerWait s)) ∧
  iWaitingWriters (lock s) = Z.of_nat (size (writerWait s)) ∧
  (∀ t, ¬ (is_Some (readerWait s !! t) ∧ is_Some (writerWait s !! t))).
Proof.
  apply (waiting_counters_count_waiters false true
           [Call 1 AcquireWrite; Call 2 AcquireRead; Call 3 AcquireWrite]).
  vm_compute. reflexivity.
Defined.

(** X3: paired releases are safe in every build.  In every reachable
    state a running thread that holds a read (write) lock can release it:
    the [Q_ASSERT] of the release holds, so the call returns also in a
    debug build; and no counter is ever negative, also in a build with
    [QT_NO_DEBUG], where nothing would stop it. *)
Theorem paired_release_never_aborts (QT_NO_DEBUG recursive : bool)
    (es : list event) (s : sys) (t : Z)
    (Hrun : run QT_NO_DEBUG (sys_new recursive) es = Some s) :
  well_formed (lock s) ∧
  (holds_read s t → 0 < iActiveReaders (lock s) ∧
     unlockRead QT_NO_DEBUG t (lock s) ≠ AssertionFailed ∧
     unlockRead false t (lock s) ≠ AssertionFailed) ∧
  (holds_write s t → 0 < iActiveWriters (lock s) ∧
     unlockWrite QT_NO_DEBUG (lock s) ≠ AssertionFailed ∧
     unlockWrite false (lock s) ≠ AssertionFailed).
Proof.
  destruct (run_new_invariant _ _ _ _ Hrun) as [Hinv _].
  split; [by apply invariant_well_formed|].
  destruct Hinv as [Hc _]. split.
  - intros [n Hn].
    destruct (consistent_read_released t n _ _ _ Hc Hn) as [_ Hpos].
    split; [done|]. split.
    + pose proof (unlockRead_invariant QT_NO_DEBUG t n _ _ _ Hc Hn) as H.
      by destruct (unlockRead _ _ _).
    + pose proof (unlockRead_invariant false t n _ _ _ Hc Hn) as H.
      by destruct (unlockRead _ _ _).
  - intros [k Hk].
    destruct (consistent_write_released t k _ _ _ Hc Hk) as [_ Hpos].
    split; [done|]. split.
    + pose proof (unlockWrite_invariant QT_NO_DEBUG t k _ _ _ Hc Hk) as H.
      by destruct (unlockWrite _ _).
    + pose proof (unlockWrite_invariant false t k _ _ _ Hc Hk) as H.
      by destruct (unlockWrite _ _).
Qed.

Lemma paired_release_never_aborts_witness :
  let s := mkSys (mkData 0 false 2 0 0 0 ∅) ∅ ∅ {[1 := 1; 2 := 1]} ∅ in
  well_formed (lock s) ∧
  (holds_read s 2 → 0 < iActiveReaders (lock s) ∧
     unlockRead true 2 (lock s) ≠ AssertionFailed ∧
     unlockRead false 2 (lock s) ≠ AssertionFailed) ∧
  (holds_write s 2 → 0 < iActiveWriters (lock s) ∧
     unlockWrite true (lock s) ≠ AssertionFailed ∧
     unlockWrite false (lock s) ≠ AssertionFailed).
Proof.
  apply (paired_release_never_aborts true false
           [Call 1 AcquireRead; Call 2 AcquireRead]).
  vm_compute. reflexivity.
Defined.

(** X4: a lock that nobody holds is as good as new.  In every reachable
    state in which no thread holds a read or a write lock, the shared
    state is that of a freshly constructed lock of the same mode, up to
    the two waiting counters: both active counters are zero,
    [currentWriter] is null and the table is empty, so no entry of a
    thread outlives its read locks. *)
Theorem unheld_lock_is_fresh (QT_NO_DEBUG recursive : bool)
    (es : list event) (s : sys)
    (Hrun : run QT_NO_DEBUG (sys_new recursive) es = Some s)
    (Hfree : ∀ t, ¬ holds_read s t ∧ ¬ holds_write s t) :
  lock s = set_iWaitingWriters (iWaitingWriters (lock s))
             (set_iWaitingReaders (iWaitingReaders (lock s))
                (Data_new recursive)).
Proof.
  destruct (run_new_invariant _ _ _ _ Hrun) as [[Hc _] Hrec].
  destruct Hc as (HpR & HpW & Har & Haw & Hw & Hrw & Hh & Hcw).
  assert (readHolds s = ∅) as ER.
  { apply map_empty. intros t. destruct (readHolds s !! t) eqn:E; [|done].
    destruct (Hfree t) as [H _]. destruct H. unfold holds_read. by eauto. }
  assert (writeHolds s = ∅) as EW.
  { apply map_empty. intros t. destruct (writeHolds s !! t) eqn:E; [|done].
    destruct (Hfree t) as [_ H]. destruct H. unfold holds_write. by eauto. }
  rewrite ER, msum_empty in Har. rewrite EW, msum_empty in Haw.
  assert (hashCurrentReaders (lock s) = ∅) as Eh.
  { rewrite Hh, ER. by destruct (bRecursive (lock s)). }
  assert (currentWriter (lock s) = 0) as Ecw.
  { destruct (bRecursive (lock s)); [|done].
    destruct (decide (currentWriter (lock s) = 0)) as [|Hnz]; [done|].
    assert (is_Some (writeHolds s !! currentWriter (lock s))) as [? H].
    { by apply Hcw. }
    by rewrite EW, lookup_empty in H. }
  destruct (lock s) as [cw rec ar aw wr ww h]. simpl in *.
  clear Hh Hcw Hw Hrw. rewrite Har, Haw, Eh, Ecw, Hrec. reflexivity.
Qed.

Lemma unheld_lock_is_fresh_witness :
  let s := mkSys (mkData 0 true 0 0 0 0 ∅) ∅ ∅ ∅ ∅ in
  lock s = set_iWaitingWriters (iWaitingWriters (lock s))
             (set_iWaitingReaders (iWaitingReaders (lock s)) (Data_new true)).
Proof.
  apply (unheld_lock_is_fresh false true
           [Call 1 AcquireRead; Call 2 AcquireWrite; Call 1 AcquireRead;
            Call 1 ReleaseRead; Call 1 ReleaseRead; Wake 2;
            Call 2 AcquireRead; Call 2 ReleaseWrite; Call 2 ReleaseRead]).
  - vm_compute. reflexivity.
  - intros t. unfold holds_read, holds_write. simpl.
    rewrite lookup_empty. split; by intros [? ?].
Defined.

Lemma step_other_thread (QT_NO_DEBUG : bool) (s s' : sys) (e : event) (t : Z) :
  step QT_NO_DEBUG s e = Some s' → thread_of e ≠ t →
  readHolds s' !! t = readHolds s !! t ∧
  writeHolds s' !! t = writeHolds s !! t ∧
  readerWait s' !! t = readerWait s !! t ∧
  writerWait s' !! t = writerWait s !! t.
Proof.
  intros Hstep Hother.
  destruct e as [u o|u]; simpl in Hother, Hstep.
  - destruct ((u =? 0) || negb (running u s)); [done|].
    destruct o.
    + destruct (lockForRead u (lock s)); injection Hstep as <-; simpl;
        rewrite ?lookup_grant_ne, ?lookup_insert_ne by done; done.
    + destruct (lockForWrite u (lock s)); injection Hstep as <-; simpl;
        rewrite ?lookup_grant_ne, ?lookup_insert_ne by done; done.
    + destruct (readHolds s !! u); [|done].
      destruct (unlockRead _ _ _); [done|]. injection Hstep as <-. simpl.
      by rewrite lookup_drop_ne by done.
    + destruct (writeHolds s !! u); [|done].
      destruct (unlockWrite _ _); [done|]. injection Hstep as <-. simpl.
      by rewrite lookup_drop_ne by done.
  - destruct (readerWait s !! u).
    + destruct (lockForRead_wake _ _); injection Hstep as <-; simpl;
        rewrite ?lookup_grant_ne, ?lookup_insert_ne, ?lookup_delete_ne by done;
        done.
    + destruct (writerWait s !! u); [|done].
      destruct (lockForWrite_wake _ _); injection Hstep as <-; simpl;
        rewrite ?lookup_grant_ne, ?lookup_insert_ne, ?lookup_delete_ne by done;
        done.
Qed.


(** X5: the read side leaves the write side alone.  [lockForRead], at the
    call and at every return from the wait, and [unlockRead] never change
    [currentWriter], [iActiveWriters], [iWaitingWriters] or the mode, and
    in the table nothing but the caller's own entry; a reader that has to
    wait counts itself in [iWaitingReaders] for the time of the wait and,
    sent back to wait after a wake-up, leaves the state exactly as it
    was. *)
Theorem read_lock_keeps_write_state (QT_NO_DEBUG : bool) (tid : Z) (d : Data) :
  match lockForRead tid d with
  | Returned d' => same_but_reader tid d d'
  | Blocked d' _ => d' = set_iWaitingReaders (iWaitingReaders d + 1) d
  end ∧
  (∀ self : Z,
     match lockForRead_wake self d with
     | Returned d' =>
         same_but_reader self (set_iWaitingReaders (iWaitingReaders d - 1) d) d'
     | Blocked d' self' => d' = d ∧ self' = self
     end) ∧
  match unlockRead QT_NO_DEBUG tid d with
  | Released d' _ => same_but_reader tid d d'
  | AssertionFailed => True
  end.
Proof.
  assert (Hloop : ∀ self d0,
            match lockForRead_loop self d0 with
            | Returned d' => same_but_reader self d0 d'
            | Blocked d' self' =>
                d' = set_iWaitingReaders (iWaitingReaders d0 + 1) d0 ∧
                self' = self
            end).
  { intros self d0. unfold lockForRead_loop.
    destruct (read_must_wait d0); [done|].
    unfold same_but_reader. destruct (bRecursive d0) eqn:Hrec; simpl;
      rewrite ?Hrec; repeat split; try done.
    intros t' Ht'. by rewrite lookup_insert_ne. }
  split; [|split].
  - unfold lockForRead. destruct (bRecursive d) eqn:Hrec.
    + simpl. destruct (hashCurrentReaders d !! tid) eqn:E.
      * unfold same_but_reader. simpl. repeat split; try done.
        intros t' Ht'. by rewrite lookup_insert_ne.
      * destruct (currentWriter d =? tid).
        -- unfold same_but_reader. simpl. repeat split; try done.
           intros t' Ht'. by rewrite lookup_insert_ne.
        -- specialize (Hloop tid d).
           destruct (lockForRead_loop tid d); [done | by destruct Hloop].
    + specialize (Hloop 0 d). unfold lockForRead_loop in *. rewrite Hrec in *.
      destruct (read_must_wait d); [done|].
      unfold same_but_reader. simpl. by repeat split.
  - intros self. unfold lockForRead_wake.
    specialize (Hloop self (set_iWaitingReaders (iWaitingReaders d - 1) d)).
    destruct (lockForRead_loop _ _) as [d'|d' self']; [done|].
    destruct Hloop as [-> ->]. split; [|done].
    destruct d as [cw rec ar aw wr ww h]. unfold set_iWaitingReaders. simpl.
    f_equal. lia.
  - rewrite unlockRead_unfold. destruct (Q_ASSERT_aborts _ _); [done|].
    assert (same_but_reader tid d (read_released tid d)) as H.
    { unfold same_but_reader, read_released. simpl. repeat split; try done.
      intros t' Ht'. destruct (bRecursive d); [|done]. by apply lookup_drop_ne. }
    by destruct (_ && _).
Qed.

(** ** Nested write locks *)

Lemma lockForWrite_returned_recursive (tid : Z) (d d1 : Data) :
  bRecursive d = true →
  lockForWrite tid d = Returned d1 →
  d1 = write_taken tid d ∧ (currentWriter d ≠ tid → iActiveWriters d ≤ 0).
Proof.
  intros Hrec. unfold lockForWrite, write_taken. rewrite Hrec. simpl.
  destruct (Z.eqb_spec (currentWriter d) tid) as [E|E].
  - intros [= <-]. split; [|done].
    destruct d as [cw rec ar aw wr ww h]. simpl in *. by subst.
  - unfold lockForWrite_loop.
    destruct (write_must_wait _ d) eqn:Hg; [done|]. intros [= <-].
    split; [done|]. intros _.
    unfold write_must_wait in Hg. apply orb_false_iff in Hg as [H _].
    by apply Z.ltb_ge in H.
Qed.

Lemma unlockWrite_write_taken (QT_NO_DEBUG : bool) (tid : Z) (d : Data) :
  0 ≤ iActiveWriters d →
  (iActiveWriters d = 0 → currentWriter d = 0) →
  (0 < iActiveWriters d → currentWriter d = tid) →
  call QT_NO_DEBUG tid ReleaseWrite (write_taken tid d) = Some d.
Proof.
  intros Hnn Hzero Hpos. unfold call. rewrite unlockWrite_unfold.
  assert (Q_ASSERT_aborts QT_NO_DEBUG (0 <? iActiveWriters (write_taken tid d))
          = false) as ->.
  { unfold Q_ASSERT_aborts. simpl.
    destruct (Z.ltb_spec 0 (iActiveWriters d + 1)); [|lia]. apply andb_false_r. }
  assert (write_released (write_taken tid d) = d) as ->.
  { unfold write_released, write_taken. simpl.
    destruct d as [cw rec ar aw wr ww h]. simpl in *.
    unfold set_currentWriter, set_iActiveWriters. simpl.
    destruct (Z.eqb_spec (aw + 1 - 1) 0) as [E|E].
    - rewrite Hzero by lia. f_equal; lia.
    - rewrite Hpos by lia. f_equal; lia. }
  by destruct (_ && _).
Qed.

Lemma nested_writes (QT_NO_DEBUG : bool) (tid : Z) (N : nat) :
  ∀ d : Data,
    bRecursive d = true →
    0 ≤ iActiveWriters d →
    (iActiveWriters d = 0 → currentWriter d = 0) →
    (0 < iActiveWriters d → currentWriter d = tid) →
    ((1 ≤ N)%nat → is_Some (call QT_NO_DEBUG tid AcquireWrite d)) →
    ∃ dN : Data,
      calls QT_NO_DEBUG tid (replicate N AcquireWrite) d = Some dN ∧
      iActiveWriters dN = iActiveWriters d + Z.of_nat N ∧
      ((1 ≤ N)%nat → currentWriter dN = tid) ∧
      calls QT_NO_DEBUG tid (replicate N ReleaseWrite) dN = Some d.
Proof.
  induction N as [|N IH]; intros d Hrec Hnn Hzero Hpos Hfirst.
  - exists d. simpl. repeat split; [lia | lia].
  - destruct Hfirst as [d1 Hd1]; [lia|].
    assert (d1 = write_taken tid d) as ->.
    { unfold call in Hd1.
      destruct (lockForWrite tid d) as [d1'|] eqn:E; [|done].
      injection Hd1 as <-. by apply lockForWrite_returned_recursive. }
    destruct (IH (write_taken tid d)) as (dN & Hacq & Haw & Hcw & Hrel).
    + exact Hrec.
    + simpl. lia.
    + simpl. lia.
    + done.
    + intros _. unfold call, lockForWrite.
      change (bRecursive (write_taken tid d)) with (bRecursive d).
      rewrite Hrec. simpl. by rewrite Z.eqb_refl.
    + exists dN. split; [|split; [|split]].
      * change (replicate (S N) AcquireWrite)
          with ([AcquireWrite] ++ replicate N AcquireWrite).
        rewrite (calls_app _ _ _ _ _ (write_taken tid d)); [done|].
        unfold calls. by rewrite Hd1.
      * rewrite Haw. simpl. lia.
      * intros _. destruct N as [|N].
        -- simpl in Hacq. by injection Hacq as <-.
        -- apply Hcw. lia.
      * change (replicate (S N) ReleaseWrite)
          with (ReleaseWrite :: replicate N ReleaseWrite).
        rewrite replicate_cons_app.
        rewrite (calls_app _ _ _ _ _ _ Hrel). unfold calls.
        by rewrite unlockWrite_write_taken.
Qed.

(** X6: nested write locks unwind.  On a recursive lock whose writer
    fields are in step ([iActiveWriters] not negative, [currentWriter]
    null when it is zero), a thread whose first [lockForWrite] returns can
    take the write lock [N ≥ 1] times and give it back [N] times with
    nothing in between: no call blocks or aborts, in between it is the
    current writer with [N] write locks more than before, and at the end
    every field of the state is what it was. *)
Theorem write_lock_reentrancy (QT_NO_DEBUG : bool) (tid : Z) (N : nat) (d : Data)
    (Hrec : bRecursive d = true)
    (Hnn : 0 ≤ iActiveWriters d)
    (Hzero : iActiveWriters d = 0 → currentWriter d = 0)
    (HN : (1 ≤ N)%nat)
    (Hfirst : is_Some (call QT_NO_DEBUG tid AcquireWrite d)) :
  calls QT_NO_DEBUG tid (replicate N AcquireWrite ++ replicate N ReleaseWrite) d
  = Some d ∧
  ∃ dN : Data,
    calls QT_NO_DEBUG tid (replicate N AcquireWrite) d = Some dN ∧
    currentWriter dN = tid ∧
    iActiveWriters dN = iActiveWriters d + Z.of_nat N ∧
    calls QT_NO_DEBUG tid (replicate N ReleaseWrite) dN = Some d.
Proof.
  assert (Hpos : 0 < iActiveWriters d → currentWriter d = tid).
  { intros Hp. destruct (decide (currentWriter d = tid)) as [|Hne]; [done|].
    destruct Hfirst as [d1 Hd1]. unfold call in Hd1.
    destruct (lockForWrite tid d) as [d1'|] eqn:E; [|done].
    destruct (lockForWrite_returned_recursive _ _ _ Hrec E) as [_ Hle].
    specialize (Hle Hne). lia. }
  destruct (nested_writes QT_NO_DEBUG tid N d Hrec Hnn Hzero Hpos (λ _, Hfirst))
    as (dN & Hacq & Haw & Hcw & Hrel).
  split.
  - by rewrite (calls_app _ _ _ _ _ _ Hacq).
  - exists dN. auto.
Qed.

Lemma write_lock_reentrancy_witness :
  calls false 5 (replicate 3 AcquireWrite ++ replicate 3 ReleaseWrite)
        (mkData 0 true 2 0 1 0 {[5 := 2]})
  = Some (mkData 0 true 2 0 1 0 {[5 := 2]}).
Proof.
  refine (proj1 (write_lock_reentrancy false 5 3
                   (mkData 0 true 2 0 1 0 {[5 := 2]}) eq_refl _ _ _ _)).
  - simpl. lia.
  - done.
  - lia.
  - vm_compute. eauto.
Defined.

(** X7: read locks on a lock that is not recursive.  While no writer is
    active or waiting, any thread can take the read lock [N] times and
    give it back [N] times and leaves the state as it was, the same
    thread over and over included.  As soon as a writer is active or
    waiting, [lockForRead] blocks whoever calls it, also a thread that
    holds a read lock already: the lock keeps no record of it. *)
Theorem nonrecursive_read_lock_nesting (QT_NO_DEBUG : bool) (tid : Z) (N : nat)
    (d : Data)
    (Hrec : bRecursive d = false) (Hnn : 0 ≤ iActiveReaders d) :
  (iActiveWriters d ≤ 0 → iWaitingWriters d ≤ 0 →
     calls QT_NO_DEBUG tid (replicate N AcquireRead ++ replicate N ReleaseRead) d
     = Some d ∧
     ∃ dN, calls QT_NO_DEBUG tid (replicate N AcquireRead) d = Some dN ∧
           iActiveReaders dN = iActiveReaders d + Z.of_nat N) ∧
  (0 < iActiveWriters d ∨ 0 < iWaitingWriters d →
     lockForRead tid d
     = Blocked (set_iWaitingReaders (iWaitingReaders d + 1) d) 0).
Proof.
  split.
  - intros Haw Hww. revert d Hrec Hnn Haw Hww.
    assert (Hall : ∀ d, bRecursive d = false → 0 ≤ iActiveReaders d →
              iActiveWriters d ≤ 0 → iWaitingWriters d ≤ 0 →
              ∃ dN, calls QT_NO_DEBUG tid (replicate N AcquireRead) d = Some dN ∧
                    iActiveReaders dN = iActiveReaders d + Z.of_nat N ∧
                    calls QT_NO_DEBUG tid (replicate N ReleaseRead) dN = Some d).
    { induction N as [|N IH]; intros d Hrec Hnn Haw Hww.
      - exists d. simpl. repeat split. lia.
      - set (d1 := set_iActiveReaders (iActiveReaders d + 1) d).
        assert (Hd1 : call QT_NO_DEBUG tid AcquireRead d = Some d1).
        { unfold call, lockForRead, lockForRead_loop. rewrite Hrec.
          by rewrite read_must_wait_false by lia. }
        assert (Hback : call QT_NO_DEBUG tid ReleaseRead d1 = Some d).
        { unfold call. rewrite unlockRead_unfold. unfold Q_ASSERT_aborts. simpl.
          destruct (Z.ltb_spec 0 (iActiveReaders d + 1)); [|lia].
          rewrite andb_false_r.
          assert (read_released tid d1 = d) as ->.
          { unfold read_released, d1. simpl. rewrite Hrec.
            destruct d as [cw rec ar aw wr ww h]. unfold set_iActiveReaders.
            simpl. f_equal. lia. }
          by destruct (_ && _). }
        destruct (IH d1) as (dN & Hacq & Har & Hrel); try done.
        { simpl. lia. }
        exists dN. split; [|split].
        + change (replicate (S N) AcquireRead)
            with ([AcquireRead] ++ replicate N AcquireRead).
          rewrite (calls_app _ _ _ _ _ d1); [done|].
          unfold calls. by rewrite Hd1.
        + rewrite Har. simpl. lia.
        + change (replicate (S N) ReleaseRead)
            with (ReleaseRead :: replicate N ReleaseRead).
          rewrite replicate_cons_app.
          rewrite (calls_app _ _ _ _ _ _ Hrel). unfold calls. by rewrite Hback. }
    intros d Hrec Hnn Haw Hww.
    destruct (Hall d Hrec Hnn Haw Hww) as (dN & Hacq & Har & Hrel). split.
    + by rewrite (calls_app _ _ _ _ _ _ Hacq).
    + by exists dN.
  - intros Hg. unfold lockForRead, lockForRead_loop. rewrite Hrec.
    by rewrite (proj2 (read_must_wait_spec d) Hg).
Qed.

Lemma nonrecursive_read_lock_nesting_witness :
  calls false 5 (replicate 2 AcquireRead ++ replicate 2 ReleaseRead)
        (mkData 0 false 1 0 0 0 ∅)
  = Some (mkData 0 false 1 0 0 0 ∅) ∧
  lockForRead 5 (mkData 0 false 1 0 0 1 ∅)
  = Blocked (set_iWaitingReaders (0 + 1) (mkData 0 false 1 0 0 1 ∅)) 0.
Proof.
  split.
  - refine (proj1 (proj1 (nonrecursive_read_lock_nesting false 5 2
               (mkData 0 false 1 0 0 0 ∅) eq_refl _) _ _)); simpl; lia.
  - refine (proj2 (nonrecursive_read_lock_nesting false 5 0
               (mkData 0 false 1 0 0 1 ∅) eq_refl _) _); simpl; lia.
Defined.

(** ** The shape of the state under a writer *)

Lemma msum_single_key (h : gmap Z Z) (t : Z) :
  (∀ j, is_Some (h !! j) → j = t) → msum h = default 0 (h !! t).
Proof.
  intros Honly. destruct (h !! t) as [v|] eqn:E; simpl.
  - rewrite (msum_delete h t v E).
    assert (delete t h = ∅) as ->; [|rewrite msum_empty; lia].
    apply map_empty. intros j. rewrite lookup_delete. case_decide as Hj; [done|].
    destruct (h !! j) eqn:Ej; [|done]. destruct Hj. symmetry. apply Honly. eauto.
  - assert (h = ∅) as ->; [|apply msum_empty].
    apply map_empty. intros j. destruct (h !! j) eqn:Ej; [|done].
    assert (j = t) as -> by (apply Honly; eauto). congruence.
Qed.

Lemma lockForRead_loop_nonrecursive (self : Z) (d : Data) :
  bRecursive d = false →
  iActiveWriters d ≤ 1 → (0 < iActiveWriters d → iActiveReaders d ≤ 0) →
  match lockForRead_loop self d with
  | Returned d1 | Blocked d1 _ =>
      iActiveWriters d1 ≤ 1 ∧ (0 < iActiveWriters d1 → iActiveReaders d1 ≤ 0)
  end.
Proof.
  intros Hrec H1 H0. unfold lockForRead_loop.
  destruct (read_must_wait d) eqn:Hg; [done|].
  unfold read_must_wait in Hg. apply orb_false_iff in Hg as [Hg _].
  apply Z.ltb_ge in Hg. rewrite Hrec. simpl. lia.
Qed.

Lemma lockForWrite_loop_nonrecursive (self : Z) (d : Data) :
  iActiveWriters d ≤ 1 → (0 < iActiveWriters d → iActiveReaders d ≤ 0) →
  match lockForWrite_loop self 0 d with
  | Returned d1 | Blocked d1 _ =>
      iActiveWriters d1 ≤ 1 ∧ (0 < iActiveWriters d1 → iActiveReaders d1 ≤ 0)
  end.
Proof.
  intros H1 H0. unfold lockForWrite_loop.
  destruct (write_must_wait 0 d) eqn:Hg; [done|].
  unfold write_must_wait in Hg. apply orb_false_iff in Hg as [Hg1 Hg2].
  apply Z.ltb_ge in Hg1, Hg2. simpl. lia.
Qed.

Lemma step_nonrecursive_exclusive (QT_NO_DEBUG : bool) (s s' : sys) (e : event) :
  invariant s → nonrecursive_exclusive (lock s) →
  step QT_NO_DEBUG s e = Some s' →
  nonrecursive_exclusive (lock s').
Proof.
  intros [_ Hwt] HP Hstep Hrec'.
  pose proof (step_bRecursive _ _ _ _ Hstep) as Hrec. rewrite Hrec' in Hrec.
  symmetry in Hrec. destruct (HP Hrec) as [H1 H0]. clear HP Hrec'.
  destruct e as [t o|t]; simpl in Hstep.
  - destruct ((t =? 0) || negb (running t s)); [done|]. destruct o.
    + unfold lockForRead in Hstep. rewrite Hrec in Hstep.
      pose proof (lockForRead_loop_nonrecursive 0 _ Hrec H1 H0) as Hl.
      destruct (lockForRead_loop 0 (lock s)); by injection Hstep as <-.
    + unfold lockForWrite in Hstep. rewrite Hrec in Hstep.
      pose proof (lockForWrite_loop_nonrecursive 0 _ H1 H0) as Hl.
      destruct (lockForWrite_loop 0 0 (lock s)); by injection Hstep as <-.
    + destruct (readHolds s !! t); [|done].
      rewrite unlockRead_unfold in Hstep.
      destruct (Q_ASSERT_aborts _ _); [done|].
      destruct (_ && _); injection Hstep as <-; simpl; lia.
    + destruct (writeHolds s !! t); [|done].
      rewrite unlockWrite_unfold in Hstep.
      destruct (Q_ASSERT_aborts _ _); [done|].
      destruct (_ && _); injection Hstep as <-; simpl; lia.
  - destruct Hwt as (_ & Hw & _).
    destruct (readerWait s !! t) as [self|].
    + unfold lockForRead_wake in Hstep.
      pose proof (lockForRead_loop_nonrecursive self
                    (set_iWaitingReaders (iWaitingReaders (lock s) - 1) (lock s))
                    Hrec H1 H0) as Hl.
      destruct (lockForRead_loop self _); by injection Hstep as <-.
    + destruct (writerWait s !! t) as [k|] eqn:Hk; [|done].
      destruct (Hw t k Hk) as [_ ->]. rewrite Hrec in Hstep.
      unfold lockForWrite_wake in Hstep. simpl in Hstep.
      pose proof (lockForWrite_loop_nonrecursive 0
                    (set_iWaitingWriters (iWaitingWriters (lock s) - 1) (lock s))
                    H1 H0) as Hl.
      destruct (lockForWrite_loop 0 0 _); by injection Hstep as <-.
Qed.

Lemma run_nonrecursive_exclusive (QT_NO_DEBUG : bool) (es : list event) :
  ∀ s s' : sys,
    invariant s → nonrecursive_exclusive (lock s) →
    run QT_NO_DEBUG s es = Some s' → nonrecursive_exclusive (lock s').
Proof.
  induction es as [|e es IH]; simpl; intros s s' Hinv HP Hrun.
  - by injection Hrun as <-.
  - destruct (step QT_NO_DEBUG s e) as [s1|] eqn:Hstep; [|done].
    eapply IH; [| |done].
    + by eapply invariant_step.
    + by eapply step_nonrecursive_exclusive.
Qed.

(** X8: what the state looks like while a writer is active.  In every
    reachable state with [iActiveWriters > 0]: on a recursive lock
    [currentWriter] names a thread, [iActiveWriters] is that thread's
    number of write locks, the table has no entry of any other thread and
    [iActiveReaders] is the writer's own number of read locks; on a lock
    that is not recursive there is exactly one write lock and no read
    lock at all. *)
Theorem state_under_writer (QT_NO_DEBUG recursive : bool)
    (es : list event) (s : sys)
    (Hrun : run QT_NO_DEBUG (sys_new recursive) es = Some s)
    (Hactive : 0 < iActiveWriters (lock s)) :
  if recursive then
    currentWriter (lock s) ≠ 0 ∧
    writeHolds s !! currentWriter (lock s) = Some (iActiveWriters (lock s)) ∧
    (∀ t, t ≠ currentWriter (lock s) →
          hashCurrentReaders (lock s) !! t = None ∧ ¬ holds_write s t) ∧
    iActiveReaders (lock s)
    = default 0 (hashCurrentReaders (lock s) !! currentWriter (lock s))
  else
    iActiveWriters (lock s) = 1 ∧ iActiveReaders (lock s) = 0 ∧
    (∀ t, ¬ holds_read s t) ∧
    (∀ t, holds_write s t → writeHolds s !! t = Some 1).
Proof.
  destruct (run_new_invariant _ _ _ _ Hrun) as [Hinv Hrec].
  pose proof (invariant_well_formed _ Hinv) as [Hnr _ _ _ _].
  pose proof (run_nonrecursive_exclusive _ _ _ _ (invariant_new recursive)
                (λ _, conj (Z.le_0_1) (λ H : 0 < 0, Z.lt_le_incl _ _ H)) Hrun)
    as Hex.
  destruct Hinv as [(HpR & HpW & Har & Haw & Hw & Hrw & Hh & Hcw) _].
  assert (∃ tw k, writeHolds s !! tw = Some k) as (tw & k & Hk).
  { destruct (decide (writeHolds s = ∅)) as [E|E].
    - rewrite E, msum_empty in Haw. lia.
    - by apply map_choose in E. }
  assert (Hsum : msum (writeHolds s) = k).
  { rewrite (msum_single_key _ tw), Hk; [done|]. intros j Hj. apply Hw; eauto. }
  rewrite Hrec in Hh, Hcw. destruct recursive.
  - assert (currentWriter (lock s) = tw ∧ tw ≠ 0) as [-> Hnz].
    { apply Hcw. eauto. }
    split; [done|]. split; [congruence|]. split.
    + intros t Ht. split.
      * rewrite Hh. destruct (readHolds s !! t) eqn:E; [|done].
        destruct Ht. symmetry. apply Hrw; eauto.
      * intros Hwt. apply Ht. by apply Hw; eauto.
    + rewrite Har, Hh. apply msum_single_key. intros j Hj. symmetry.
      apply Hrw; eauto.
  - destruct (Hex Hrec) as [Hle Hno]. specialize (Hno Hactive).
    assert (iActiveReaders (lock s) = 0) as Ear by lia.
    split; [lia|]. split; [done|]. split.
    + intros t [n Hn]. pose proof (msum_lookup_le _ _ _ HpR Hn).
      pose proof (HpR _ _ Hn). lia.
    + intros t Ht. assert (t = tw) as -> by (apply Hw; eauto).
      rewrite Hk. f_equal. lia.
Qed.

Lemma state_under_writer_witness :
  let s := mkSys (mkData 2 true 1 2 0 0 {[2 := 1]}) ∅ ∅ {[2 := 1]} {[2 := 2]} in
  currentWriter (lock s) ≠ 0 ∧
  writeHolds s !! currentWriter (lock s) = Some (iActiveWriters (lock s)) ∧
  (∀ t, t ≠ currentWriter (lock s) →
        hashCurrentReaders (lock s) !! t = None ∧ ¬ holds_write s t) ∧
  iActiveReaders (lock s)
  = default 0 (hashCurrentReaders (lock s) !! currentWriter (lock s)).
Proof.
  apply (state_under_writer false true
           [Call 2 AcquireWrite; Call 2 AcquireRead; Call 2 AcquireWrite]).
  - vm_compute. reflexivity.
  - simpl. lia.
Defined.

(** ** Writers first, readers together *)

Lemma sys_eta (s : sys) :
  mkSys (lock s) (readerWait s) (writerWait s) (readHolds s) (writeHolds s) = s.
Proof. by destruct s. Qed.

Lemma set_iWaitingReaders_back (d : Data) :
  set_iWaitingReaders
    (iWaitingReaders (set_iWaitingReaders (iWaitingReaders d - 1) d) + 1)
    (set_iWaitingReaders (iWaitingReaders d - 1) d) = d.
Proof.
  destruct d as [cw rec ar aw wr ww h]. unfold set_iWaitingReaders. simpl.
  f_equal. lia.
Qed.

Lemma set_iWaitingWriters_back (d : Data) :
  set_iWaitingWriters
    (iWaitingWriters (set_iWaitingWriters (iWaitingWriters d - 1) d) + 1)
    (set_iWaitingWriters (iWaitingWriters d - 1) d) = d.
Proof.
  destruct d as [cw rec ar aw wr ww h]. unfold set_iWaitingWriters. simpl.
  f_equal. lia.
Qed.

(** A waiter whose guard holds goes back to wait and leaves no trace. *)
Lemma wake_reader_in_vain (QT_NO_DEBUG : bool) (s : sys) (t self : Z) :
  readerWait s !! t = Some self → read_must_wait (lock s) = true →
  step QT_NO_DEBUG s (Wake t) = Some s.
Proof.
  intros Ht Hg. simpl. rewrite Ht. unfold lockForRead_wake, lockForRead_loop.
  assert (read_must_wait
            (set_iWaitingReaders (iWaitingReaders (lock s) - 1) (lock s)) = true)
    as -> by exact Hg.
  rewrite set_iWaitingReaders_back, insert_id by done. by rewrite sys_eta.
Qed.

Lemma wake_writer_in_vain (QT_NO_DEBUG : bool) (s : sys) (t : Z) (k : Z * Z) :
  readerWait s !! t = None → writerWait s !! t = Some k →
  write_must_wait (snd k) (lock s) = true →
  step QT_NO_DEBUG s (Wake t) = Some s.
Proof.
  intros Hr Ht Hg. simpl. rewrite Hr, Ht.
  unfold lockForWrite_wake, lockForWrite_loop.
  assert (write_must_wait (snd k)
            (set_iWaitingWriters (iWaitingWriters (lock s) - 1) (lock s)) = true)
    as -> by exact Hg.
  rewrite set_iWaitingWriters_back. destruct k as [self n]. simpl.
  rewrite insert_id by done. by rewrite sys_eta.
Qed.

(** X9: readers queue behind a waiting writer.  In every reachable state
    in which some thread waits in [lockForWrite], a thread that calls
    [lockForRead] without holding a lock of its own (on a lock that is not
    recursive: any thread) is put to wait, with nothing granted; and a
    reader woken while a writer still waits goes back to wait and leaves
    the whole state as it was. *)
Theorem readers_queue_behind_writer (QT_NO_DEBUG recursive : bool)
    (es : list event) (s : sys) (t : Z)
    (Hrun : run QT_NO_DEBUG (sys_new recursive) es = Some s)
    (Hwriter : writerWait s ≠ ∅) :
  (t ≠ 0 → running t s = true →
   (recursive = true → ¬ holds_read s t ∧ ¬ holds_write s t) →
     ∃ s', step QT_NO_DEBUG s (Call t AcquireRead) = Some s' ∧
           is_Some (readerWait s' !! t) ∧
           readHolds s' = readHolds s ∧ writeHolds s' = writeHolds s ∧
           writerWait s' = writerWait s) ∧
  (is_Some (readerWait s !! t) → step QT_NO_DEBUG s (Wake t) = Some s).
Proof.
  destruct (run_new_invariant _ _ _ _ Hrun) as [[Hc Hwt] Hrec].
  destruct Hwt as (_ & _ & _ & _ & Hnw).
  assert (Hg : read_must_wait (lock s) = true).
  { apply read_must_wait_spec. right.
    apply map_size_non_empty_iff in Hwriter. lia. }
  split.
  - intros Ht Hrunning Hnew. simpl.
    destruct (Z.eqb_spec t 0) as [|_]; [done|]. rewrite Hrunning. simpl.
    assert (lockForRead t (lock s)
            = lockForRead_loop (if recursive then t else 0) (lock s)) as ->.
    { unfold lockForRead. rewrite Hrec. destruct recursive; [|done].
      destruct (Hnew eq_refl) as [Hnr Hnwr].
      destruct Hc as (_ & _ & _ & _ & _ & _ & Hh & Hcw). rewrite Hrec in Hh, Hcw.
      simpl. rewrite Hh.
      destruct (readHolds s !! t) eqn:E; [destruct Hnr; by eexists|].
      destruct (Z.eqb_spec (currentWriter (lock s)) t) as [Ecw|]; [|done].
      destruct Hnwr. by apply Hcw. }
    unfold lockForRead_loop. rewrite Hg. eexists. split; [done|]. simpl.
    rewrite lookup_insert_eq. by eauto.
  - intros [self Hself]. by eapply wake_reader_in_vain.
Qed.

Lemma readers_queue_behind_writer_witness :
  let s := mkSys (mkData 0 true 1 0 0 1 {[1 := 1]}) ∅ {[2 := (2, 0)]}
                 {[1 := 1]} ∅ in
  (3 ≠ 0 → running 3 s = true →
   (true = true → ¬ holds_read s 3 ∧ ¬ holds_write s 3) →
     ∃ s', step false s (Call 3 AcquireRead) = Some s' ∧
           is_Some (readerWait s' !! 3) ∧
           readHolds s' = readHolds s ∧ writeHolds s' = writeHolds s ∧
           writerWait s' = writerWait s) ∧
  (is_Some (readerWait s !! 3) → step false s (Wake 3) = Some s).
Proof.
  apply (readers_queue_behind_writer false true
           [Call 1 AcquireRead; Call 2 AcquireWrite]).
  - vm_compute. reflexivity.
  - intros E. apply (f_equal (λ m, m !! 2)) in E. vm_compute in E. discriminate E.
Defined.

Lemma lockForRead_unguarded (t : Z) (d : Data) :
  read_must_wait d = false →
  ∃ d', lockForRead t d = Returned d' ∧
        iActiveReaders d' = iActiveReaders d + 1 ∧
        read_must_wait d' = false.
Proof.
  intros Hg. unfold lockForRead, lockForRead_loop. rewrite Hg.
  destruct (bRecursive d).
  - simpl. destruct (hashCurrentReaders d !! t); [by eexists|].
    destruct (currentWriter d =? t); by eexists.
  - by eexists.
Qed.

(** X10: readers do not wait for each other.  From any state without an
    active and without a waiting writer, all the threads of a list of
    running threads can call [lockForRead] one after the other: every
    call returns at once, whatever the number of readers already there;
    afterwards each of them holds a read lock, [iActiveReaders] has grown
    by their number and nobody has been put to wait. *)
Theorem readers_enter_together (QT_NO_DEBUG : bool) (ts : list Z) (s : sys)
    (Hfree : iActiveWriters (lock s) ≤ 0 ∧ iWaitingWriters (lock s) ≤ 0)
    (Hts : ∀ t, t ∈ ts → t ≠ 0 ∧ running t s = true) :
  ∃ s', run QT_NO_DEBUG s (map (λ t, Call t AcquireRead) ts) = Some s' ∧
        iActiveReaders (lock s')
        = iActiveReaders (lock s) + Z.of_nat (length ts) ∧
        (∀ t, t ∈ ts → holds_read s' t) ∧
        readerWait s' = readerWait s ∧ writerWait s' = writerWait s.
Proof.
  assert (Hg : read_must_wait (lock s) = false).
  { apply read_must_wait_false. lia. }
  clear Hfree. revert s Hg Hts.
  assert (Hall : ∀ s, read_must_wait (lock s) = false →
            (∀ t, t ∈ ts → t ≠ 0 ∧ running t s = true) →
            ∃ s', run QT_NO_DEBUG s (map (λ t, Call t AcquireRead) ts) = Some s' ∧
                  iActiveReaders (lock s')
                  = iActiveReaders (lock s) + Z.of_nat (length ts) ∧
                  (∀ t, is_Some (readHolds s !! t) ∨ t ∈ ts → holds_read s' t) ∧
                  readerWait s' = readerWait s ∧ writerWait s' = writerWait s).
  { induction ts as [|t ts IH]; intros s Hg Hts.
    - exists s. simpl. split; [done|]. split; [lia|]. split; [|done].
      intros t [H|H]; [done | by apply not_elem_of_nil in H].
    - destruct (Hts t) as [Ht Hrunning]; [by left|].
      destruct (lockForRead_unguarded t (lock s) Hg) as (d' & Hd' & Har & Hg').
      set (s1 := mkSys d' (readerWait s) (writerWait s)
                       (grant t (readHolds s)) (writeHolds s)).
      assert (Hstep : step QT_NO_DEBUG s (Call t AcquireRead) = Some s1).
      { simpl. destruct (Z.eqb_spec t 0) as [|_]; [done|].
        rewrite Hrunning. simpl. by rewrite Hd'. }
      destruct (IH s1) as (s' & Hrun & Har' & Hholds & Hrw & Hww).
      + exact Hg'.
      + intros u Hu. destruct (Hts u) as [? Hru]; [by right|]. done.
      + exists s'. split; [|split; [|split; [|done]]].
        * simpl map. simpl run. simpl in Hstep. rewrite Hstep. exact Hrun.
        * rewrite Har'. simpl. lia.
        * intros u Hu. apply Hholds. simpl.
          destruct Hu as [Hu|Hu].
          -- left. apply is_Some_grant. by right.
          -- apply elem_of_cons in Hu as [->|Hu]; [|by right].
             left. apply is_Some_grant. by left. }
  intros s Hg Hts. destruct (Hall s Hg Hts) as (s' & ? & ? & Hholds & ? & ?).
  exists s'. repeat split; try done. intros t Ht. apply Hholds. by right.
Qed.

Lemma readers_enter_together_witness :
  ∃ s', run false (mkSys (mkData 0 true 1 0 0 0 {[1 := 1]}) ∅ ∅ {[1 := 1]} ∅)
            (map (λ t, Call t AcquireRead) [2; 3; 1]) = Some s' ∧
        iActiveReaders (lock s') = 1 + Z.of_nat (length [2; 3; 1]) ∧
        (∀ t, t ∈ [2; 3; 1] → holds_read s' t) ∧
        readerWait s' = ∅ ∧ writerWait s' = ∅.
Proof.
  apply (readers_enter_together false [2; 3; 1]
           (mkSys (mkData 0 true 1 0 0 0 {[1 := 1]}) ∅ ∅ {[1 := 1]} ∅)).
  - simpl. lia.
  - intros t Ht. repeat (apply elem_of_cons in Ht as [->|Ht]);
      [by split | by split | by split | by apply not_elem_of_nil in Ht].
Defined.

(** ** Waits that never end *)

Lemma msum_two (h : gmap Z Z) (a t n : Z) :
  positive_counts h → h !! a = Some n → a ≠ t →
  default 0 (h !! t) + n ≤ msum h.
Proof.
  intros Hpos Ha Hne. destruct (h !! t) as [v|] eqn:Et; simpl.
  - rewrite (msum_delete h t v Et).
    assert (n ≤ msum (delete t h)); [|lia].
    apply (msum_lookup_le _ a); [by apply positive_counts_delete|].
    by rewrite lookup_delete_ne.
  - pose proof (msum_lookup_le h a n Hpos Ha). lia.
Qed.

Lemma run_preserves (QT_NO_DEBUG : bool) (P : sys → Prop) :
  (∀ s s' e, invariant s → P s → step QT_NO_DEBUG s e = Some s' → P s') →
  ∀ es s s', invariant s → P s → run QT_NO_DEBUG s es = Some s' → P s'.
Proof.
  intros Hstep es. induction es as [|e es IH]; simpl; intros s s' Hinv HP Hrun.
  - by injection Hrun as <-.
  - destruct (step QT_NO_DEBUG s e) as [s1|] eqn:E; [|done].
    eapply IH; [| |done].
    + by eapply invariant_step.
    + by eapply Hstep.
Qed.

Lemma not_running_no_call (QT_NO_DEBUG : bool) (s : sys) (t : Z) (o : op) :
  is_Some (readerWait s !! t) ∨ is_Some (writerWait s !! t) →
  step QT_NO_DEBUG s (Call t o) = None.
Proof.
  intros Hw. simpl.
  assert (running t s = false) as ->; [|by rewrite orb_true_r].
  destruct (running t s) eqn:E; [|done].
  apply running_spec in E as [E1 E2]. rewrite E1, E2 in Hw.
  by destruct Hw as [[? ?]|[? ?]].
Qed.

Lemma self_deadlocked_step (QT_NO_DEBUG : bool) (s s' : sys) (e : event) (t : Z) :
  invariant s → bRecursive (lock s) = false → self_deadlocked s t →
  step QT_NO_DEBUG s e = Some s' → self_deadlocked s' t.
Proof.
  intros [Hc Hwt] Hrec Hdead Hstep.
  destruct (decide (thread_of e = t)) as [Ht|Ht].
  - assert (s' = s) as ->; [|done].
    destruct e as [u o|u]; simpl in Ht; subst u.
    + rewrite not_running_no_call in Hstep; [done|].
      destruct Hdead as [[? _]|[? _]]; by eauto.
    + assert (step QT_NO_DEBUG s (Wake t) = Some s) as E; [|congruence].
      destruct Hc as (HpR & HpW & Har & Haw & _).
      destruct Hwt as (_ & Hw & Hdisj & _).
      destruct Hdead as [[[k Hk] Hhold]|[[self Hself] [n Hn]]].
      * apply (wake_writer_in_vain _ _ _ k); [|done|].
        { destruct (Hdisj t) as [|E]; [done | congruence]. }
        destruct (Hw t k Hk) as [_ ->]. rewrite Hrec. simpl.
        apply write_must_wait_spec.
        destruct Hhold as [[n Hn]|[n Hn]].
        -- right. pose proof (msum_lookup_le _ _ _ HpR Hn).
           pose proof (HpR _ _ Hn). lia.
        -- left. pose proof (msum_lookup_le _ _ _ HpW Hn).
           pose proof (HpW _ _ Hn). lia.
      * apply (wake_reader_in_vain _ _ _ self); [done|].
        apply read_must_wait_spec. left.
        pose proof (msum_lookup_le _ _ _ HpW Hn). pose proof (HpW _ _ Hn). lia.
  - destruct (step_other_thread _ _ _ _ t Hstep Ht) as (E1 & E2 & E3 & E4).
    unfold self_deadlocked, holds_read, holds_write in *.
    by rewrite E1, E2, E3, E4.
Qed.

(** X11: self-deadlock on a lock that is not recursive.  In every
    reachable state of such a lock, a thread that holds a read or a write
    lock and calls [lockForWrite], or holds the write lock and calls
    [lockForRead], is put to wait; and once it waits like that it waits
    forever: whatever the threads do afterwards, it is still waiting and
    still holds what it held. *)
Theorem nonrecursive_self_deadlock (QT_NO_DEBUG : bool)
    (es es' : list event) (s s' : sys) (t : Z)
    (Hrun : run QT_NO_DEBUG (sys_new false) es = Some s) :
  (t ≠ 0 → running t s = true →
     (holds_read s t ∨ holds_write s t →
        ∃ s1, step QT_NO_DEBUG s (Call t AcquireWrite) = Some s1 ∧
              self_deadlocked s1 t) ∧
     (holds_write s t →
        ∃ s1, step QT_NO_DEBUG s (Call t AcquireRead) = Some s1 ∧
              self_deadlocked s1 t)) ∧
  (self_deadlocked s t → run QT_NO_DEBUG s es' = Some s' →
     self_deadlocked s' t).
Proof.
  destruct (run_new_invariant _ _ _ _ Hrun) as [Hinv Hrec]. split.
  - intros Ht Hrunning.
    destruct Hinv as [(HpR & HpW & Har & Haw & _) _]. split.
    + intros Hhold. simpl. destruct (Z.eqb_spec t 0) as [|_]; [done|].
      rewrite Hrunning. simpl. unfold lockForWrite, lockForWrite_loop.
      rewrite Hrec.
      assert (write_must_wait 0 (lock s) = true) as ->.
      { apply write_must_wait_spec. destruct Hhold as [[n Hn]|[n Hn]].
        - right. pose proof (msum_lookup_le _ _ _ HpR Hn).
          pose proof (HpR _ _ Hn). lia.
        - left. pose proof (msum_lookup_le _ _ _ HpW Hn).
          pose proof (HpW _ _ Hn). lia. }
      eexists. split; [done|]. left. simpl. split; [|done].
      rewrite lookup_insert_eq. by eauto.
    + intros [n Hn]. simpl. destruct (Z.eqb_spec t 0) as [|_]; [done|].
      rewrite Hrunning. simpl. unfold lockForRead, lockForRead_loop.
      rewrite Hrec.
      assert (read_must_wait (lock s) = true) as ->.
      { apply read_must_wait_spec. left.
        pose proof (msum_lookup_le _ _ _ HpW Hn). pose proof (HpW _ _ Hn). lia. }
      eexists. split; [done|]. right. simpl. split; [|by eexists].
      rewrite lookup_insert_eq. by eauto.
  - intros Hdead Hrun'.
    assert (bRecursive (lock s') = false ∧ self_deadlocked s' t) as [_ H]; [|done].
    apply (run_preserves QT_NO_DEBUG
             (λ s, bRecursive (lock s) = false ∧ self_deadlocked s t)
             ltac:(intros s0 s1 e Hi [Hr Hd] Hst; split;
                     [by rewrite (step_bRecursive _ _ _ _ Hst)
                     |by eapply self_deadlocked_step])
             es' s s'); done.
Qed.

Lemma nonrecursive_self_deadlock_witness :
  self_deadlocked
    (mkSys (mkData 0 false 1 0 1 2 ∅) {[2 := 0]} {[1 := (0, 0); 3 := (0, 0)]}
           {[1 := 1]} ∅) 1.
Proof.
  refine (proj2 (nonrecursive_self_deadlock false
                   [Call 1 AcquireRead; Call 1 AcquireWrite]
                   [Call 2 AcquireRead; Wake 1; Wake 2; Call 3 AcquireWrite]
                   (mkSys (mkData 0 false 1 0 0 1 ∅) ∅ {[1 := (0, 0)]}
                          {[1 := 1]} ∅) _ 1 _) _ _).
  - vm_compute. reflexivity.
  - left. split; [by eexists | left; by eexists].
  - vm_compute. reflexivity.
Defined.

Lemma promoters_write_guard (s : sys) (a b u : Z) :
  invariant s → promoters_deadlocked s a b →
  write_must_wait
    (if bRecursive (lock s) then default 0 (readHolds s !! u) else 0) (lock s)
  = true.
Proof.
  intros [(HpR & _ & Har & _) _] (Hab & _ & _ & [na Ha] & [nb Hb]).
  apply write_must_wait_spec. right. rewrite Har.
  assert (∃ c n, c ≠ u ∧ readHolds s !! c = Some n) as (c & n & Hc & Hn).
  { destruct (decide (a = u)) as [->|]; [exists b, nb | exists a, na]; done. }
  pose proof (msum_two _ c u n HpR Hn Hc). pose proof (HpR _ _ Hn).
  assert (0 ≤ default 0 (readHolds s !! u)).
  { destruct (readHolds s !! u) as [v|] eqn:E; simpl; [|lia].
    pose proof (HpR _ _ E). lia. }
  destruct (bRecursive (lock s)); lia.
Qed.

Lemma promoters_no_writer (s : sys) (a b : Z) :
  invariant s → promoters_deadlocked s a b → writeHolds s = ∅.
Proof.
  intros [(_ & _ & _ & _ & _ & Hrw & _) _] (Hab & _ & _ & Ha & Hb).
  apply map_empty. intros t. destruct (writeHolds s !! t) eqn:E; [|done].
  destruct Hab. transitivity t; [symmetry|]; apply Hrw; eauto.
Qed.

Lemma promoters_deadlocked_step (QT_NO_DEBUG : bool) (s s' : sys) (e : event)
    (a b : Z) :
  invariant s → promoters_deadlocked s a b →
  step QT_NO_DEBUG s e = Some s' →
  promoters_deadlocked s' a b ∧ writeHolds s' = writeHolds s.
Proof.
  intros Hinv Hdead Hstep.
  pose proof (promoters_no_writer _ _ _ Hinv Hdead) as HW.
  pose proof Hinv as [Hc (_ & Hw & Hdisj & _)].
  assert (Hwake : ∀ u k, writerWait s !! u = Some k →
            step QT_NO_DEBUG s (Wake u) = Some s).
  { intros u k Hk. apply (wake_writer_in_vain _ _ _ k); [|done|].
    - destruct (Hdisj u) as [|E]; [done | congruence].
    - destruct (Hw u k Hk) as [_ ->]. simpl.
      by apply (promoters_write_guard s a b u). }
  destruct e as [u o|u].
  - assert (Hu : u ≠ a ∧ u ≠ b).
    { destruct Hdead as (_ & Ha & Hb & _).
      split; intros ->; rewrite not_running_no_call in Hstep; by eauto. }
    destruct Hu as [Hua Hub].
    split.
    + destruct (step_other_thread _ _ _ _ a Hstep Hua) as (A1 & A2 & A3 & A4).
      destruct (step_other_thread _ _ _ _ b Hstep Hub) as (B1 & B2 & B3 & B4).
      unfold promoters_deadlocked, holds_read in *.
      by rewrite A1, A4, B1, B4.
    + simpl in Hstep. destruct (Z.eqb_spec u 0) as [|Hnz]; [done|].
      destruct (running u s); [simpl in Hstep|done]. destruct o.
      * destruct (lockForRead u (lock s)); by injection Hstep as <-.
      * assert (∃ d k, lockForWrite u (lock s) = Blocked d k) as (d & k & E).
        { pose proof (promoters_write_guard s a b u Hinv Hdead) as Hg.
          destruct Hc as (_ & _ & _ & _ & _ & _ & Hh & Hcw).
          unfold lockForWrite, lockForWrite_loop.
          destruct (bRecursive (lock s)).
          - simpl. destruct (Z.eqb_spec (currentWriter (lock s)) u) as [Ecw|_].
            + assert (is_Some (writeHolds s !! u)) as [? H] by (by apply Hcw).
              by rewrite HW, lookup_empty in H.
            + rewrite Hh.
              replace (match readHolds s !! u with Some n => n | None => 0 end)
                with (default 0 (readHolds s !! u))
                by (by destruct (readHolds s !! u)).
              rewrite Hg. by eauto.
          - rewrite Hg. by eauto. }
        rewrite E in Hstep. by injection Hstep as <-.
      * destruct (readHolds s !! u); [|done].
        destruct (unlockRead _ _ _); [done|]. by injection Hstep as <-.
      * by rewrite HW, lookup_empty in Hstep.
  - destruct (writerWait s !! u) as [k|] eqn:Hk.
    + rewrite (Hwake u k Hk) in Hstep. by injection Hstep as <-.
    + assert (Hu : u ≠ a ∧ u ≠ b).
      { destruct Hdead as (_ & [? Ha] & [? Hb] & _).
        split; intros ->; congruence. }
      destruct Hu as [Hua Hub]. split.
      * destruct (step_other_thread _ _ _ _ a Hstep Hua) as (A1 & A2 & A3 & A4).
        destruct (step_other_thread _ _ _ _ b Hstep Hub) as (B1 & B2 & B3 & B4).
        unfold promoters_deadlocked, holds_read in *.
        by rewrite A1, A4, B1, B4.
      * simpl in Hstep. rewrite Hk in Hstep.
        destruct (readerWait s !! u); [|done].
        destruct (lockForRead_wake _ _); by injection Hstep as <-.
Qed.

(** X12: two promotions at once deadlock.  When two threads each hold a
    read lock and both wait in [lockForWrite], neither is ever let in:
    each waits for the other's read lock, which is never given back.
    Whatever the threads do afterwards, both still wait and still hold
    their read locks, and no thread at all holds the write lock.  This
    holds in either mode, and with any wake-ups. *)
Theorem promotion_race_deadlocks (QT_NO_DEBUG recursive : bool)
    (es es' : list event) (s s' : sys) (a b : Z)
    (Hrun : run QT_NO_DEBUG (sys_new recursive) es = Some s)
    (Hdead : promoters_deadlocked s a b)
    (Hrun' : run QT_NO_DEBUG s es' = Some s') :
  promoters_deadlocked s' a b ∧ ∀ t, ¬ holds_write s' t.
Proof.
  destruct (run_new_invariant _ _ _ _ Hrun) as [Hinv _].
  assert (Hdead' : promoters_deadlocked s' a b).
  { apply (run_preserves QT_NO_DEBUG (λ s, promoters_deadlocked s a b)
             ltac:(intros s0 s1 e Hi Hd Hst;
                   by apply (promoters_deadlocked_step _ _ _ _ _ _ Hi Hd Hst))
             es' s s'); done. }
  split; [done|]. intros t [k Hk].
  pose proof (invariant_run _ _ _ _ Hinv Hrun') as Hinv'.
  by rewrite (promoters_no_writer _ _ _ Hinv' Hdead'), lookup_empty in Hk.
Qed.

Lemma promotion_race_deadlocks_witness :
  let s' := mkSys (mkData 0 true 2 0 1 3 {[1 := 1; 2 := 1]}) {[3 := 3]}
                  {[1 := (1, 1); 2 := (2, 1); 4 := (4, 0)]}
                  {[1 := 1; 2 := 1]} ∅ in
  promoters_deadlocked s' 1 2 ∧ ∀ t, ¬ holds_write s' t.
Proof.
  refine (promotion_race_deadlocks false true
            [Call 1 AcquireRead; Call 2 AcquireRead;
             Call 1 AcquireWrite; Call 2 AcquireWrite]
            [Wake 1; Call 3 AcquireRead; Wake 2; Call 4 AcquireWrite]
            (mkSys (mkData 0 true 2 0 0 2 {[1 := 1; 2 := 1]}) ∅
                   {[1 := (1, 1); 2 := (2, 1)]} {[1 := 1; 2 := 1]} ∅)
            _ 1 2 _ _ _).
  - vm_compute. reflexivity.
  - split; [lia|]. unfold holds_read. simpl.
    repeat split; vm_compute; by eexists.
  - vm_compute. reflexivity.
Defined.

(** ** The wake-up a promotion never gets *)

Lemma step_signalled_threads (QT_NO_DEBUG : bool) (ws ws' : signalled_sys)
    (e : event) (pick : option Z) :
  step_signalled QT_NO_DEBUG ws e pick = Some ws' →
  step QT_NO_DEBUG (threads ws) e = Some (threads ws').
Proof.
  unfold step_signalled. destruct e as [t o|t].
  - destruct (step QT_NO_DEBUG (threads ws) (Call t o)) as [s'|]; [|done].
    destruct (wake_of _ _ _) as [[| |]|]; repeat case_match;
      intros; by simplify_eq/=.
  - case_bool_decide; [|done].
    destruct (step QT_NO_DEBUG (threads ws) (Wake t)) as [s'|]; [|done].
    intros; by simplify_eq/=.
Qed.

Lemma run_signalled_threads (QT_NO_DEBUG : bool) (es : list (event * option Z)) :
  ∀ ws ws', run_signalled QT_NO_DEBUG ws es = Some ws' →
            run QT_NO_DEBUG (threads ws) (es.*1) = Some (threads ws').
Proof.
  induction es as [|[e pick] es IH]; simpl; intros ws ws' Hrun.
  - by injection Hrun as <-.
  - destruct (step_signalled QT_NO_DEBUG ws e pick) as [ws1|] eqn:E; [|done].
    rewrite (step_signalled_threads _ _ _ _ _ E). by apply IH.
Qed.

Lemma call_needs_running (QT_NO_DEBUG : bool) (s s' : sys) (t : Z) (o : op) :
  step QT_NO_DEBUG s (Call t o) = Some s' →
  t ≠ 0 ∧ readerWait s !! t = None ∧ writerWait s !! t = None.
Proof.
  simpl. destruct (Z.eqb_spec t 0) as [|Ht]; [done|].
  destruct (running t s) eqn:E; [|done]. intros _.
  by apply running_spec in E.
Qed.

Lemma signalled_wait_step (QT_NO_DEBUG : bool) (ws ws' : signalled_sys)
    (e : event) (pick : option Z) :
  signalled_wait ws → step_signalled QT_NO_DEBUG ws e pick = Some ws' →
  signalled_wait ws'.
Proof.
  intros Hsw Hstep.
  pose proof (step_signalled_threads _ _ _ _ _ Hstep) as Hth.
  assert (Hkeep : ∀ t, t ≠ thread_of e →
            is_Some (readerWait (threads ws) !! t) ∨
            is_Some (writerWait (threads ws) !! t) →
            is_Some (readerWait (threads ws') !! t) ∨
            is_Some (writerWait (threads ws') !! t)).
  { intros t Ht Hw.
    destruct (step_other_thread _ _ _ _ t Hth) as (_ & _ & E3 & E4); [done|].
    by rewrite E3, E4. }
  unfold step_signalled in Hstep. destruct e as [u o|u].
  - rewrite Hth in Hstep.
    destruct (call_needs_running _ _ _ _ _ Hth) as (_ & Hur & Huw).
    assert (Hne : ∀ t, is_Some (readerWait (threads ws) !! t) ∨
                       is_Some (writerWait (threads ws) !! t) → t ≠ u).
    { intros t Hw ->. rewrite Hur, Huw in Hw. by destruct Hw as [[? ?]|[? ?]]. }
    assert (Hin : ∀ t, is_Some (readerWait (threads ws) !! t) ∨
                       is_Some (writerWait (threads ws) !! t) →
                       is_Some (readerWait (threads ws') !! t) ∨
                       is_Some (writerWait (threads ws') !! t)).
    { intros t Hw. apply Hkeep; [by apply Hne | done]. }
    destruct (wake_of _ _ _) as [[| |]|].
    + destruct pick as [t'|]; case_bool_decide as Hp; try done;
        injection Hstep as <-; intros t Ht; simpl in *; apply Hin.
      * apply elem_of_union in Ht as [Ht|Ht]; [by apply Hsw|].
        apply elem_of_singleton in Ht as ->.
        apply elem_of_difference in Hp as [Hp _].
        right. by apply elem_of_dom in Hp.
      * by apply Hsw.
    + injection Hstep as <-. intros t Ht. simpl in *. apply Hin.
      apply elem_of_union in Ht as [Ht|Ht]; [by apply Hsw|].
      left. by apply elem_of_dom in Ht.
    + injection Hstep as <-. intros t Ht. apply Hin. by apply Hsw.
    + injection Hstep as <-. intros t Ht. apply Hin. by apply Hsw.
  - case_bool_decide; [|done]. rewrite Hth in Hstep. injection Hstep as <-.
    intros t Ht. simpl in *. apply elem_of_difference in Ht as [Ht Hne].
    apply Hkeep; [|by apply Hsw]. simpl. intros ->. apply Hne.
    by apply elem_of_singleton.
Qed.

Lemma signalled_wait_run (QT_NO_DEBUG : bool) (es : list (event * option Z)) :
  ∀ ws ws', signalled_wait ws → run_signalled QT_NO_DEBUG ws es = Some ws' →
            signalled_wait ws'.
Proof.
  induction es as [|[e pick] es IH]; simpl; intros ws ws' Hsw Hrun.
  - by injection Hrun as <-.
  - destruct (step_signalled QT_NO_DEBUG ws e pick) as [ws1|] eqn:E; [|done].
    eapply IH; [|done]. by eapply signalled_wait_step.
Qed.

(** While a waiting thread holds a read lock, no release wakes anybody. *)
Lemma no_wake_beside_reader (QT_NO_DEBUG : bool) (s s' : sys) (e : event) (p : Z) :
  invariant s → holds_read s p →
  is_Some (readerWait s !! p) ∨ is_Some (writerWait s !! p) →
  step QT_NO_DEBUG s e = Some s' →
  wake_of QT_NO_DEBUG s e = None.
Proof.
  intros [(HpR & _ & Har & _) _] [n Hn] Hwait Hstep.
  pose proof (msum_lookup_le _ _ _ HpR Hn) as Hle. pose proof (HpR _ _ Hn) as Hpos.
  destruct e as [u [| | |]|u]; try done; simpl.
  - destruct (call_needs_running _ _ _ _ _ Hstep) as (_ & Hur & Huw).
    assert (u ≠ p) as Hup.
    { intros ->. rewrite Hur, Huw in Hwait. by destruct Hwait as [[? ?]|[? ?]]. }
    simpl in Hstep. destruct ((u =? 0) || negb (running u s)); [done|].
    destruct (readHolds s !! u) as [m|] eqn:Hm; [|done].
    pose proof (msum_two _ p u n HpR Hn ltac:(done)) as H2.
    rewrite Hm in H2. simpl in H2. pose proof (HpR _ _ Hm).
    rewrite unlockRead_unfold. destruct (Q_ASSERT_aborts _ _); [done|].
    destruct (Z.eqb_spec (iActiveReaders (lock s) - 1) 0); [lia|]. done.
  - rewrite unlockWrite_unfold. destruct (Q_ASSERT_aborts _ _); [done|].
    destruct (Z.eqb_spec (iActiveReaders (lock s)) 0); [lia|].
    by rewrite andb_false_r.
Qed.

Lemma stranded_step (QT_NO_DEBUG : bool) (ws ws' : signalled_sys) (e : event)
    (pick : option Z) (p : Z) :
  invariant (threads ws) → stranded ws p →
  step_signalled QT_NO_DEBUG ws e pick = Some ws' →
  stranded ws' p ∧ signalled ws' ⊆ signalled ws ∧
  ∀ t, waits_unsignalled ws t → waits_unsignalled ws' t.
Proof.
  intros Hinv (Hwp & Hsp & Hrp) Hstep.
  pose proof (step_signalled_threads _ _ _ _ _ Hstep) as Hth.
  pose proof (no_wake_beside_reader _ _ _ _ p Hinv Hrp (or_intror Hwp) Hth) as Hnw.
  assert (Hsub : signalled ws' ⊆ signalled ws).
  { unfold step_signalled in Hstep. destruct e as [u o|u].
    - rewrite Hth, Hnw in Hstep. by injection Hstep as <-.
    - case_bool_decide; [|done]. rewrite Hth in Hstep. injection Hstep as <-.
      simpl. intros x Hx. by apply elem_of_difference in Hx as [? _]. }
  assert (Hother : ∀ t, waits_unsignalled ws t → thread_of e ≠ t).
  { intros t [Hw Hs] <-. destruct e as [u o|u]; simpl in *.
    - destruct (call_needs_running _ _ _ _ _ Hth) as (_ & Hur & Huw).
      rewrite Hur, Huw in Hw. by destruct Hw as [[? ?]|[? ?]].
    - unfold step_signalled in Hstep. by case_bool_decide. }
  assert (Hkeep : ∀ t, waits_unsignalled ws t → waits_unsignalled ws' t).
  { intros t Ht. pose proof (Hother t Ht) as Hne. destruct Ht as [Hw Hs].
    destruct (step_other_thread _ _ _ _ t Hth Hne) as (_ & _ & E3 & E4).
    split; [by rewrite E3, E4|]. intros Hin. apply Hs. by apply Hsub. }
  split; [|by split].
  destruct (Hkeep p) as [_ Hsp']; [split; [by right | done]|].
  assert (thread_of e ≠ p) as Hne.
  { apply Hother. split; [by right | done]. }
  destruct (step_other_thread _ _ _ _ p Hth Hne) as (E1 & _ & _ & E4).
  unfold stranded, holds_read. by rewrite E1, E4.
Qed.

Lemma stranded_run (QT_NO_DEBUG : bool) (p : Z) (es : list (event * option Z)) :
  ∀ ws ws' : signalled_sys,
    invariant (threads ws) → stranded ws p →
    run_signalled QT_NO_DEBUG ws es = Some ws' →
    stranded ws' p ∧ signalled ws' ⊆ signalled ws ∧
    ∀ t, waits_unsignalled ws t → waits_unsignalled ws' t.
Proof.
  induction es as [|[e pick] es IH]; simpl; intros ws ws' Hinv Hstr Hrun.
  - injection Hrun as <-. done.
  - destruct (step_signalled QT_NO_DEBUG ws e pick) as [ws1|] eqn:E; [|done].
    destruct (stranded_step _ _ _ _ _ _ Hinv Hstr E) as (Hstr1 & Hsub1 & Hkeep1).
    pose proof (invariant_step _ _ _ _ Hinv (step_signalled_threads _ _ _ _ _ E))
      as Hinv1.
    destruct (IH ws1 ws' Hinv1 Hstr1 Hrun) as (Hstr' & Hsub' & Hkeep').
    split; [done|]. split; [by etrans|]. intros t Ht. by apply Hkeep', Hkeep1.
Qed.

(** X13: a promotion that has to wait never returns.  With the wake-ups
    that [QWaitCondition] delivers, a thread that calls [lockForWrite]
    while it holds a read lock and is put to wait is never woken:
    [wakeUp] is called only when [iActiveReaders] is zero, and the
    thread's own read lock keeps it above.  From then on no release wakes
    anybody, so every thread that waits without being signalled already,
    the promoter first, is still waiting after whatever the threads
    do. *)
Theorem blocked_promotion_never_returns (QT_NO_DEBUG recursive : bool)
    (es es' : list (event * option Z)) (ws ws' : signalled_sys) (p : Z)
    (Hrun : run_signalled QT_NO_DEBUG (signalled_new recursive) es = Some ws) :
  (∀ pick ws1,
     holds_read (threads ws) p →
     step_signalled QT_NO_DEBUG ws (Call p AcquireWrite) pick = Some ws1 →
     is_Some (writerWait (threads ws1) !! p) →
     stranded ws1 p) ∧
  (stranded ws p → run_signalled QT_NO_DEBUG ws es' = Some ws' →
     stranded ws' p ∧ signalled ws' ⊆ signalled ws ∧
     ∀ t, waits_unsignalled ws t → waits_unsignalled ws' t).
Proof.
  pose proof (run_signalled_threads _ _ _ _ Hrun) as Hth.
  destruct (run_new_invariant _ _ _ _ Hth) as [Hinv _].
  assert (Hsw : signalled_wait ws).
  { apply (signalled_wait_run _ _ _ _) with (2 := Hrun).
    intros t Ht. simpl in Ht. by apply not_elem_of_empty in Ht. }
  split.
  - intros pick [s1 sig1] Hrp Hstep Hwp.
    pose proof (step_signalled_threads _ _ _ _ _ Hstep) as Hth1.
    unfold stranded. cbn [threads signalled] in *.
    destruct (call_needs_running _ _ _ _ _ Hth1) as (_ & Hur & Huw).
    split; [done|]. split.
    + unfold step_signalled in Hstep. rewrite Hth1 in Hstep. simpl in Hstep.
      injection Hstep as <-. intros Hin.
      destruct (Hsw p Hin) as [[? H]|[? H]]; congruence.
    + simpl in Hth1. destruct ((p =? 0) || negb (running p (threads ws))); [done|].
      destruct (lockForWrite p (lock (threads ws))); injection Hth1 as <-.
      * simpl in Hwp. rewrite Huw in Hwp. by destruct Hwp.
      * done.
  - intros Hstr Hrun'. by eapply stranded_run.
Qed.

Lemma blocked_promotion_never_returns_witness :
  (* thread 5 waits to promote its read lock, thread 6 gives back the
     other read lock, threads 7 and 8 arrive: all three wait *)
  let ws' := mkSignalled
               (mkSys (mkData 0 true 1 0 1 2 {[5 := 1]}) {[7 := 7]}
                      {[5 := (5, 1); 8 := (8, 0)]} {[5 := 1]} ∅) ∅ in
  stranded ws' 5 ∧ signalled ws' ⊆ ∅ ∧
  ∀ t, waits_unsignalled
         (mkSignalled
            (mkSys (mkData 0 true 2 0 0 1 {[5 := 1; 6 := 1]}) ∅
                   {[5 := (5, 1)]} {[5 := 1; 6 := 1]} ∅) ∅) t →
       waits_unsignalled ws' t.
Proof.
  refine (proj2 (blocked_promotion_never_returns false true
            [(Call 5 AcquireRead, None); (Call 6 AcquireRead, None);
             (Call 5 AcquireWrite, None)]
            [(Call 6 ReleaseRead, None); (Call 7 AcquireRead, None);
             (Call 8 AcquireWrite, None)]
            (mkSignalled
               (mkSys (mkData 0 true 2 0 0 1 {[5 := 1; 6 := 1]}) ∅
                      {[5 := (5, 1)]} {[5 := 1; 6 := 1]} ∅) ∅)
            _ 5 _) _ _).
  - vm_compute. reflexivity.
  - unfold stranded, holds_read. simpl. split; [|split].
    + vm_compute. by eexists.
    + apply not_elem_of_empty.
    + vm_compute. by eexists.
  - vm_compute. reflexivity.
Defined.

(** ** The wake-up a waiting writer does get *)






(** * Models of the matrix concept *)

Lemma std_equal_same_length {T U : Type} (eqb : T → U → bool) (l1 : list T) :
  ∀ l2 : list U, length l1 = length l2 →
    ∃ b, std_equal eqb l1 l2 = Some b ∧
         (b = true ↔ Forall2 (λ x y, eqb x y = true) l1 l2).
Proof.
  induction l1 as [|x l1 IH]; intros [|y l2] Hlen; simpl in *; try done.
  - exists true. split; [done|]. split; [by constructor | done].
  - destruct (IH l2) as (b & Hb & Hiff); [lia|].
    destruct (eqb x y) eqn:E.
    + exists b. split; [done|]. rewrite Hiff. split.
      * intros H. by constructor.
      * intros H. by inversion H.
    + exists false. split; [done|]. split; [done|].
      intros H. inversion H. congruence.
Qed.


Lemma at_unfold {T : Type} (m : Matrix T) (r c : Z) :
  0 ≤ r < rows m → 0 ≤ c < columns m →
  at_ m r c = entries m !! Z.to_nat (r * columns m + c).
Proof.
  intros Hr Hc. unfold at_.
  destruct (Z.leb_spec 0 r), (Z.ltb_spec r (rows m)),
           (Z.leb_spec 0 c), (Z.ltb_spec c (columns m)); simpl; done || lia.
Qed.


(** X16: [Pii::equals] compares shape, then entries.  For two models of
    the matrix concept the comparison never runs past the end of the
    second matrix, and it says [true] exactly when the matrices have the
    same number of rows, the same number of columns and pairwise equal
    entries.  Matrices of different shape are different even when they
    have the same entries, or none at all. *)
Theorem equals_compares_shape_and_entries {T U : Type} (eqb : T → U → bool)
    (mat1 : Matrix T) (mat2 : Matrix U)
    (H1 : models_matrix mat1) (H2 : models_matrix mat2) :
  ∃ b, equals eqb mat1 mat2 = Some b ∧
       (b = true ↔
          rows mat1 = rows mat2 ∧ columns mat1 = columns mat2 ∧
          Forall2 (λ x y, eqb x y = true) (entries mat1) (entries mat2)) ∧
       (rows mat1 ≠ rows mat2 ∨ columns mat1 ≠ columns mat2 → b = false).
Proof.
  unfold equals.
  destruct (Z.eqb_spec (rows mat1) (rows mat2)) as [Er|Er];
    destruct (Z.eqb_spec (columns mat1) (columns mat2)) as [Ec|Ec]; simpl;
    try (exists false; split; [done|]; split; [|done]; split; [done|];
         by intros (? & ? & _)).
  destruct H1 as (_ & _ & L1). destruct H2 as (_ & _ & L2).
  destruct (std_equal_same_length eqb (entries mat1) (entries mat2))
    as (b & Hb & Hiff).
  { apply Nat2Z.inj. rewrite L1, L2, Er, Ec. done. }
  exists b. split; [done|]. split.
  - rewrite Hiff. by intuition.
  - intros [?|?]; done.
Qed.

Lemma equals_compares_shape_and_entries_witness :
  (* no rows of three columns against three rows of no columns *)
  ∃ b, equals Z.eqb (mkMatrix 0 3 []) (mkMatrix 3 0 []) = Some b ∧
       (b = true ↔
          rows (mkMatrix 0 3 ([] : list Z)) = rows (mkMatrix 3 0 ([] : list Z)) ∧
          columns (mkMatrix 0 3 ([] : list Z)) = columns (mkMatrix 3 0 ([] : list Z)) ∧
          Forall2 (λ x y, (x =? y) = true) [] []) ∧
       (rows (mkMatrix 0 3 ([] : list Z)) ≠ rows (mkMatrix 3 0 ([] : list Z)) ∨
        columns (mkMatrix 0 3 ([] : list Z)) ≠ columns (mkMatrix 3 0 ([] : list Z)) →
        b = false).
Proof.
  apply (equals_compares_shape_and_entries Z.eqb (mkMatrix 0 3 []) (mkMatrix 3 0 []));
    unfold models_matrix; simpl; lia.
Defined.





(** X19: assigning a value fills the matrix.  After [m = value] the
    matrix has the shape it had and is still a model of the concept,
    every access inside it reads [value], and two matrices of the same
    shape that were assigned the same value compare equal, provided the
    value equals itself. *)
Theorem assign_value_fills {T : Type} (eqb : T → T → bool) (m m' : Matrix T)
    (value : T) (Hm : models_matrix m) (Hm' : models_matrix m') :
  models_matrix (assign_value m value) ∧
  rows (assign_value m value) = rows m ∧
  columns (assign_value m value) = columns m ∧
  (∀ r c, 0 ≤ r < rows m → 0 ≤ c < columns m →
          at_ (assign_value m value) r c = Some value) ∧
  (eqb value value = true → rows m = rows m' → columns m = columns m' →
     equals eqb (assign_value m value) (assign_value m' value) = Some true).
Proof.
  pose proof Hm as (Hr & Hc & Hlen). pose proof Hm' as (Hr' & Hc' & Hlen').
  split; [|split; [done|split; [done|split]]].
  - unfold models_matrix. simpl. by rewrite length_replicate.
  - intros r c Hrr Hcc. rewrite at_unfold by (simpl; lia). simpl.
    apply lookup_replicate_2. nia.
  - intros Hv Er Ec. unfold equals. simpl. rewrite Er, Ec, !Z.eqb_refl. simpl.
    assert (length (entries m) = length (entries m')) as ->.
    { apply Nat2Z.inj. by rewrite Hlen, Hlen', Er, Ec. }
    generalize (length (entries m')). clear -Hv.
    intros n. induction n as [|n IH]; simpl; [done|]. by rewrite Hv.
Qed.

Lemma assign_value_fills_witness :
  at_ (assign_value (mkMatrix 2 2 [1; 2; 3; 4]) 7) 1 0 = Some 7 ∧
  equals Z.eqb (assign_value (mkMatrix 2 2 [1; 2; 3; 4]) 7)
               (assign_value (mkMatrix 2 2 [5; 6; 7; 8]) 7) = Some true.
Proof.
  pose proof (assign_value_fills Z.eqb (mkMatrix 2 2 [1; 2; 3; 4])
                (mkMatrix 2 2 [5; 6; 7; 8]) 7
                ltac:(unfold models_matrix; simpl; lia)
                ltac:(unfold models_matrix; simpl; lia))
    as (_ & _ & _ & Hat & Heq).
  split.
  - apply Hat; simpl; lia.
  - apply Heq; reflexivity.
Defined.
